(** * quantum-eigen: the finite-difference Hamiltonian builder and the
      eigen solver wrapper of [src/eigen.py]

    The development embeds the two functions of [eigen.py],
    [build_2d_hamiltonian] and [solve_eigen], and checks the statements
    of the specification against them.

    Modelling choices.
    - Python integers are [Z].  The arithmetic on floats is read in two
      ways.  The definitions of the builder that come first compute in
      exact rationals ([Qc]): every finite binary64 number is a rational,
      and the result is the one of the program whenever no operation
      rounds.  [Generic] is the same builder over an arithmetic given as
      a parameter, of which [binary64], IEEE 754 double precision, is
      the one the program runs on; the statements about the values that
      rounding changes are made there.
    - A two-dimensional [ndarray] is a list of rows.  Reads and writes by
      index follow NumPy: an index [k] with [-len <= k < 0] counts from
      the end, any other index out of range raises [IndexError].
    - Exceptions are explicit: every operation that can raise returns a
      [result].
    - The library routines [eigh] and [np.argsort] are arguments of the
      model of [solve_eigen]; the statements assume of them only the
      shape of what [eigh] returns and that [argsort] returns a
      permutation of the indices that sorts the array. *)

From Stdlib Require Import QArith Qcanon.
From Stdlib Require SpecFloat.
From stdpp Require Import base option list list_numbers numbers strings sorting.

Open Scope string_scope.
Open Scope Z_scope.

(** ** Exceptions *)

Inductive exn : Set :=
  | ZeroDivisionError
  | IndexError
  | ValueError
  | LinAlgError.

Inductive result (A : Type) : Type :=
  | Ok (a : A)
  | Raise (e : exn).
Arguments Ok {A} a.
Arguments Raise {A} e.

#[global] Instance exn_eq_dec : EqDecision exn.
Proof. solve_decision. Defined.

#[global] Instance result_eq_dec `{EqDecision A} : EqDecision (result A).
Proof. solve_decision. Defined.

#[global] Instance result_ret : MRet result := λ A a, Ok a.
#[global] Instance result_bind : MBind result := λ A B k m,
  match m with
  | Ok a => k a
  | Raise e => Raise e
  end.

Definition raises {A : Type} (m : result A) : Prop :=
  match m with Ok _ => False | Raise _ => True end.

(** [for x in xs: s = body x s] *)
Fixpoint for_each {A S : Type} (xs : list A) (body : A → S → result S)
    (s : S) : result S :=
  match xs with
  | [] => Ok s
  | x :: xs' => s' ← body x s; for_each xs' body s'
  end.

(** ** Numbers and arrays *)

Abbreviation float64 := Qc (only parsing).

(** [float(n)] for a Python integer [n] *)
Definition float_of_int (n : Z) : float64 := Qc_of_Z n.

(** a float literal with an integral value, as [4.] *)
Definition lit (n : Z) : float64 := Qc_of_Z n.

(** [a / b] on floats: Python raises on a zero divisor *)
Definition truediv (a b : float64) : result float64 :=
  if decide (b = 0%Qc) then Raise ZeroDivisionError else Ok (a / b)%Qc.

(** [range(n)] *)
Definition range (n : Z) : list Z := seqZ 0 n.

(** a two-dimensional array, as its list of rows *)
Abbreviation ndarray := (list (list float64)) (only parsing).

(** [np.zeros((n, m))].  Memory is taken to be unbounded: NumPy also
    raises for a shape too large to allocate, which is not modelled. *)
Definition np_zeros (n m : Z) : result ndarray :=
  if decide (n < 0 ∨ m < 0) then Raise ValueError
  else Ok (replicate (Z.to_nat n) (replicate (Z.to_nat m) 0%Qc)).

(** the position an index denotes in an axis of length [len] *)
Definition norm_index (len : nat) (k : Z) : result nat :=
  if decide (0 ≤ k < Z.of_nat len) then Ok (Z.to_nat k)
  else if decide (- Z.of_nat len ≤ k < 0) then Ok (Z.to_nat (Z.of_nat len + k))
  else Raise IndexError.

(** [H[r, c]] *)
Definition getitem {A : Type} (H : list (list A)) (r c : Z) : result A :=
  r' ← norm_index (length H) r;
  match H !! r' with
  | Some row =>
      c' ← norm_index (length row) c;
      match row !! c' with
      | Some v => Ok v
      | None => Raise IndexError
      end
  | None => Raise IndexError
  end.

(** [H[r, c] = v] *)
Definition setitem {A : Type} (H : list (list A)) (r c : Z) (v : A)
    : result (list (list A)) :=
  r' ← norm_index (length H) r;
  match H !! r' with
  | Some row =>
      c' ← norm_index (length row) c;
      Ok (<[r' := <[c' := v]> row]> H)
  | None => Raise IndexError
  end.

(** [H] has [n] rows of [n] entries *)
Definition square {A : Type} (n : Z) (H : list (list A)) : Prop :=
  Z.of_nat (length H) = n ∧ Forall (λ row, Z.of_nat (length row) = n) H.

(** [H] is an [n] x [n] array whose entry at [(r, c)] is [f r c] *)
Definition agrees {A : Type} (n : Z) (H : list (list A)) (f : Z → Z → A)
    : Prop :=
  square n H ∧
  ∀ r c, 0 ≤ r < n → 0 ≤ c < n → getitem H r c = Ok (f r c).

(** ** [build_2d_hamiltonian] *)

(** the closure [idx] of the builder *)
Definition idx (N i j : Z) : Z := i * N + j.

(** the closure [V] of the builder, in exact arithmetic; [dx] is the
    captured grid spacing *)
Definition V (N : Z) (dx : float64) (potential : string) (i j : Z) : float64 :=
  if decide (potential = "well") then 0%Qc
  else if decide (potential = "harmonic") then
    let x := ((float_of_int i - float_of_int N / lit 2) * dx)%Qc in
    let y := ((float_of_int j - float_of_int N / lit 2) * dx)%Qc in
    (lit 4 * (x ^ 2 + y ^ 2))%Qc
  else 0%Qc.

(** the body of the inner loop, for the grid point [(i, j)] *)
Definition visit (N : Z) (dx inv_dx2 : float64) (potential : string)
    (i j : Z) (H : ndarray) : result ndarray :=
  let row := idx N i j in
  H ← setitem H row row (lit (-4) * inv_dx2 + V N dx potential i j)%Qc;
  H ← (if decide (i > 0) then setitem H row (idx N (i - 1) j) inv_dx2
           else Ok H);
  H ← (if decide (i < N - 1) then setitem H row (idx N (i + 1) j) inv_dx2
           else Ok H);
  H ← (if decide (j > 0) then setitem H row (idx N i (j - 1)) inv_dx2
           else Ok H);
  if decide (j < N - 1) then setitem H row (idx N i (j + 1)) inv_dx2
  else Ok H.

Definition build_2d_hamiltonian (N : Z) (potential : string) : result ndarray :=
  dx ← truediv (lit 1) (float_of_int N);
  let inv_dx2 := float_of_int (N * N) in
  H ← np_zeros (N * N) (N * N);
  for_each (range N)
    (λ i H, for_each (range N) (visit N dx inv_dx2 potential i) H) H.

(** ** The arithmetic of the program *)

(** The builder computes with Python floats, in binary64, where every
    operation rounds.  The definitions above read its arithmetic in exact
    rationals; this is what the program computes whenever no operation
    rounds, as for the integer entries of the matrix.  [Generic] is the
    same program with the arithmetic as a parameter: [exact] gives the
    definitions above back, [binary64] is the arithmetic of IEEE 754
    double precision with rounding to nearest, ties to even. *)
Record arithmetic : Type := {
  num : Type;
  (** a float literal with an integral value, as [4.] *)
  num_lit : Z → num;
  (** [float(n)] *)
  num_of_int : Z → num;
  num_add : num → num → num;
  num_sub : num → num → num;
  num_mul : num → num → num;
  (** [a / b] for a divisor that is not zero *)
  num_quot : num → num → num;
  (** [x ** 2] *)
  num_sqr : num → num;
  num_is_zero : num → bool
}.

Definition exact : arithmetic := {|
  num := Qc;
  num_lit := lit;
  num_of_int := float_of_int;
  num_add := Qcplus;
  num_sub := Qcminus;
  num_mul := Qcmult;
  num_quot := Qcdiv;
  num_sqr := λ x, (x ^ 2)%Qc;
  num_is_zero := λ x, bool_decide (x = 0%Qc)
|}.

(** Binary64 numbers and operations as the standard library specifies
    them.  Not modelled: [float(n)] raises [OverflowError] for an integer
    beyond the range of binary64 and [x ** 2] raises it when the square
    overflows, where the operations here return an infinity; [x ** 2] is
    taken to be the correctly rounded product [x * x]. *)
Definition binary64 : arithmetic := {|
  num := SpecFloat.spec_float;
  num_lit := λ n, SpecFloat.binary_normalize 53 1024 n 0 false;
  num_of_int := λ n, SpecFloat.binary_normalize 53 1024 n 0 false;
  num_add := SpecFloat.SFadd 53 1024;
  num_sub := SpecFloat.SFsub 53 1024;
  num_mul := SpecFloat.SFmul 53 1024;
  num_quot := SpecFloat.SFdiv 53 1024;
  num_sqr := λ x, SpecFloat.SFmul 53 1024 x x;
  num_is_zero := λ x,
    match x with SpecFloat.S754_zero _ => true | _ => false end
|}.



(** ** [solve_eigen] *)

(** [[f x for x in xs]], for an [f] that can raise *)
Fixpoint map_result {A B : Type} (f : A → result B) (xs : list A)
    : result (list B) :=
  match xs with
  | [] => Ok []
  | x :: xs' => y ← f x; ys ← map_result f xs'; Ok (y :: ys)
  end.

(** [a[k]] on a one-dimensional array *)
Definition item (a : list float64) (k : Z) : result float64 :=
  p ← norm_index (length a) k;
  match a !! p with
  | Some v => Ok v
  | None => Raise IndexError
  end.

(** [a[ix]] for an array [ix] of integer indices *)
Definition gather (a : list float64) (ix : list Z) : result (list float64) :=
  map_result (item a) ix.

(** [M[:, ix]] *)
Definition gather_columns (M : ndarray) (ix : list Z) : result ndarray :=
  map_result (λ row, gather row ix) M.

(** [M[:, k]], a column *)
Definition column (M : ndarray) (k : Z) : result (list float64) :=
  map_result (λ row, item row k) M.

(** the stop position of the slice [a[:n]] in an axis of length [len] *)
Definition slice_stop (len : nat) (n : Z) : nat :=
  Z.to_nat (if decide (n < 0) then Z.max 0 (Z.of_nat len + n) else n).

(** [a[:n]] *)
Definition slice_to {A : Type} (n : Z) (a : list A) : list A :=
  take (slice_stop (length a) n) a.

(** The two library routines [solve_eigen] calls are arguments of the
    model: [eigh], the dense symmetric eigensolver of SciPy, and
    [argsort], NumPy's indirect sort.  [n_eigs] is [None] when the
    argument is left out. *)
Definition solve_eigen
    (eigh : ndarray → result (list float64 * ndarray))
    (argsort : list float64 → list Z)
    (N : Z) (potential : string) (n_eigs : option Z)
    : result (list float64 * ndarray) :=
  H ← build_2d_hamiltonian N potential;
  vv ← eigh H;
  let vals := vv.1 in
  let vecs := vv.2 in
  let idx_sorted := argsort vals in
  vals_sorted ← gather vals idx_sorted;
  vecs_sorted ← gather_columns vecs idx_sorted;
  match n_eigs return result (list float64 * ndarray) with
  | None => Ok (vals_sorted, vecs_sorted)
  | Some n => Ok (slice_to n vals_sorted, slice_to n <$> vecs_sorted)
  end.

(** what [solve_eigen] relies on from [eigh] on an [n] x [n] matrix: [n]
    eigenvalues and an [n] x [n] array whose columns are the eigenvectors *)
Definition spectrum_of_size (n : Z) (vv : list float64 * ndarray) : Prop :=
  Z.of_nat (length vv.1) = n ∧ square n vv.2.

(** what [solve_eigen] relies on from [argsort]: the indices of [a], each
    once, in an order that sorts [a] *)
Definition sorts (a : list float64) (ix : list Z) : Prop :=
  ix ≡ₚ seqZ 0 (Z.of_nat (length a)) ∧
  ∀ b, gather a ix = Ok b → Sorted Qcle b.

(** an indirect merge sort, one function that meets [sorts] *)
Definition by_value (p q : Z * float64) : Prop := (p.2 ≤ q.2)%Qc.

#[global] Instance by_value_dec p q : Decision (by_value p q).
Proof. unfold by_value. apply _. Defined.

Definition merge_argsort (a : list float64) : list Z :=
  fst <$> merge_sort by_value (zip (seqZ 0 (Z.of_nat (length a))) a).

(** the [k]-th eigenpair of a result: an eigenvalue and its column *)
Definition eigenpair (vv : list float64 * ndarray) (k : Z)
    : result (float64 * list float64) :=
  v ← item vv.1 k; col ← column vv.2 k; Ok (v, col).

(** the entry of [a] at an index inside it *)
Definition at_index (a : list float64) (q : Z) : float64 :=
  default 0%Qc (a !! Z.to_nat q).

(** ** The five-point stencil, as the specification describes it *)

(** the grid point [(r / N, r mod N)] of a linear index [r] *)
Definition grid_point (N r : Z) : Z * Z := (r / N, r mod N).

Definition in_grid (N : Z) (p : Z * Z) : Prop :=
  0 ≤ p.1 < N ∧ 0 ≤ p.2 < N.

#[global] Instance in_grid_dec N p : Decision (in_grid N p).
Proof. unfold in_grid. apply _. Defined.

(** the axis-aligned neighbours (up, down, left, right) of [(i, j)] that
    lie in the grid *)
Definition neighbours (N : Z) (p : Z * Z) : list (Z * Z) :=
  filter (in_grid N)
    [(p.1 - 1, p.2); (p.1 + 1, p.2); (p.1, p.2 - 1); (p.1, p.2 + 1)].

(** their linear indices, for the grid point of the linear index [r] *)
Definition neighbour_indices (N r : Z) : list Z :=
  (λ p, idx N p.1 p.2) <$> neighbours N (grid_point N r).

(** a grid point on the border of the grid *)
Definition on_border (N : Z) (p : Z * Z) : Prop :=
  p.1 = 0 ∨ p.1 = N - 1 ∨ p.2 = 0 ∨ p.2 = N - 1.

(** entry [(r, c)] of the stencil matrix: the diagonal term on the
    diagonal, the coupling [N * N] at the neighbours of [r], zero
    elsewhere *)
Definition stencil (N : Z) (potential : string) (r c : Z) : float64 :=
  if decide (c = r) then
    (lit (-4) * float_of_int (N * N)
     + V N (lit 1 / float_of_int N) potential (r / N) (r mod N))%Qc
  else if decide (c ∈ neighbour_indices N r) then float_of_int (N * N)
  else 0%Qc.

(** what the five writes of [visit] leave in column [c] of the row of
    [(i, j)], over the previous content [old]: the last write wins *)
Definition visited (N : Z) (dx inv_dx2 : float64) (potential : string)
    (i j c : Z) (old : float64) : float64 :=
  if decide (j < N - 1 ∧ c = idx N i (j + 1)) then inv_dx2
  else if decide (j > 0 ∧ c = idx N i (j - 1)) then inv_dx2
  else if decide (i < N - 1 ∧ c = idx N (i + 1) j) then inv_dx2
  else if decide (i > 0 ∧ c = idx N (i - 1) j) then inv_dx2
  else if decide (c = idx N i j) then
    (lit (-4) * inv_dx2 + V N dx potential i j)%Qc
  else old.


(** a coupling term of row [r]: an off-diagonal entry that is not zero *)
Definition coupled (H : ndarray) (r c : Z) : Prop :=
  c ≠ r ∧ getitem H r c ≠ Ok 0%Qc.

#[global] Instance coupled_dec H r c : Decision (coupled H r c).
Proof. unfold coupled. apply _. Defined.

(** the columns of the coupling terms in row [r] of an array with [n]
    columns *)
Definition coupling_terms (n : Z) (H : ndarray) (r : Z) : list Z :=
  filter (coupled H r) (seqZ 0 n).

(** [H[r]], a row of the array *)
Definition getrow (H : ndarray) (r : Z) : result (list float64) :=
  r' ← norm_index (length H) r;
  match H !! r' with
  | Some row => Ok row
  | None => Raise IndexError
  end.

(** [a.sum()] in exact arithmetic, where the order of the additions does
    not matter; NumPy adds in binary64, with the same result as long as
    no addition rounds, as for a row of integers *)
Definition np_sum (a : list float64) : float64 := foldr Qcplus 0%Qc a.

(** [H[r].sum()], the sum of a row *)
Definition row_sum (H : ndarray) (r : Z) : result float64 :=
  row ← getrow H r; Ok (np_sum row).

(** the matrix once the grid points of linear index below [k] have been
    visited *)
Definition partial (N : Z) (potential : string) (k r c : Z) : float64 :=
  if decide (r < k) then stencil N potential r c else 0%Qc.

(** ** A fixture for the solver *)

(** an eigensolver stand-in that returns the spectrum of a 4 x 4 diagonal
    matrix in an order that is not sorted, with the unit vectors as
    eigenvectors *)
Definition unsorted_eigh (H : ndarray) : result (list float64 * ndarray) :=
  Ok ([lit 3; lit 1; lit 2; lit 0],
      [[lit 1; lit 0; lit 0; lit 0];
       [lit 0; lit 1; lit 0; lit 0];
       [lit 0; lit 0; lit 1; lit 0];
       [lit 0; lit 0; lit 0; lit 1]]).

(** ** The command line entry point *)

(** the namespace that the argument parser returns *)
Record namespace : Set := {
  arg_N : Z;
  arg_potential : string;
  arg_n_eigs : Z
}.

(** the defaults of the three options *)
Definition default_args : namespace :=
  {| arg_N := 20; arg_potential := "well"; arg_n_eigs := 5 |}.

(** an argument of [print] *)
Inductive printable : Type :=
  | PStr (s : string)
  | PInt (n : Z)
  | PArray (a : list float64)
  | PExn (e : exn).

(** how the [try] statement of the script ends: it prints one line, or an
    exception that the handler does not catch leaves the script *)
Inductive outcome : Type :=
  | Printed (line : list printable)
  | Uncaught (e : exn).

(** [isinstance(e, ValueError)]: the handler [except ValueError] catches
    [ValueError] and the classes derived from it, of which [LinAlgError]
    is one *)
Definition is_ValueError (e : exn) : bool :=
  match e with
  | ValueError | LinAlgError => true
  | ZeroDivisionError | IndexError => false
  end.

(** the [try] statement of the script, for parsed arguments [args] *)
Definition main
    (eigh : ndarray → result (list float64 * ndarray))
    (argsort : list float64 → list Z) (args : namespace) : outcome :=
  match solve_eigen eigh argsort (arg_N args) (arg_potential args)
          (Some (arg_n_eigs args)) with
  | Ok (vals, _) =>
      Printed [PStr "Lowest"; PInt (arg_n_eigs args); PStr "eigenvalues:";
               PArray vals]
  | Raise e =>
      if is_ValueError e then Printed [PStr "Error:"; PExn e] else Uncaught e
  end.

(** the number of items the slice [a[:n]] keeps of [len] items *)
Definition slice_count (len n : Z) : Z :=
  if decide (n < 0) then Z.max 0 (len + n) else Z.min n len.

(** the number of eigenpairs [solve_eigen] returns on an [N] x [N] grid *)
Definition returned_count (N : Z) (n_eigs : option Z) : Z :=
  match n_eigs with
  | None => N * N
  | Some n => slice_count (N * N) n
  end.

(** the unit vectors of dimension 4, as the columns of an array *)
Definition unit_vectors : ndarray :=
  [[lit 1; lit 0; lit 0; lit 0];
   [lit 0; lit 1; lit 0; lit 0];
   [lit 0; lit 0; lit 1; lit 0];
   [lit 0; lit 0; lit 0; lit 1]].

(** ** The program over an arithmetic *)

Module Generic.
Section program.
Context (A : arithmetic).

Local Notation "a +. b" := (num_add A a b) (at level 50, left associativity).
Local Notation "a -. b" := (num_sub A a b) (at level 50, left associativity).
Local Notation "a *. b" := (num_mul A a b) (at level 40, left associativity).
Local Notation "a /. b" := (num_quot A a b) (at level 40, left associativity).

(** [a / b] on floats: Python raises on a zero divisor *)
Definition truediv (a b : num A) : result (num A) :=
  if num_is_zero A b then Raise ZeroDivisionError else Ok (a /. b).

(** [np.zeros((n, m))] *)
Definition np_zeros (n m : Z) : result (list (list (num A))) :=
  if decide (n < 0 ∨ m < 0) then Raise ValueError
  else Ok (replicate (Z.to_nat n) (replicate (Z.to_nat m) (num_lit A 0))).

(** the closure [V] of the builder; [dx] is the captured grid spacing *)
Definition V (N : Z) (dx : num A) (potential : string) (i j : Z) : num A :=
  if decide (potential = "well") then num_lit A 0
  else if decide (potential = "harmonic") then
    let x := (num_of_int A i -. num_of_int A N /. num_lit A 2) *. dx in
    let y := (num_of_int A j -. num_of_int A N /. num_lit A 2) *. dx in
    num_lit A 4 *. (num_sqr A x +. num_sqr A y)
  else num_lit A 0.

(** the body of the inner loop, for the grid point [(i, j)] *)
Definition visit (N : Z) (dx inv_dx2 : num A) (potential : string)
    (i j : Z) (H : list (list (num A))) : result (list (list (num A))) :=
  let row := idx N i j in
  H ← setitem H row row (num_lit A (-4) *. inv_dx2 +. V N dx potential i j);
  H ← (if decide (i > 0) then setitem H row (idx N (i - 1) j) inv_dx2
       else Ok H);
  H ← (if decide (i < N - 1) then setitem H row (idx N (i + 1) j) inv_dx2
       else Ok H);
  H ← (if decide (j > 0) then setitem H row (idx N i (j - 1)) inv_dx2
       else Ok H);
  if decide (j < N - 1) then setitem H row (idx N i (j + 1)) inv_dx2
  else Ok H.

Definition build_2d_hamiltonian (N : Z) (potential : string)
    : result (list (list (num A))) :=
  dx ← truediv (num_lit A 1) (num_of_int A N);
  let inv_dx2 := num_of_int A (N * N) in
  H ← np_zeros (N * N) (N * N);
  for_each (range N)
    (λ i H, for_each (range N) (visit N dx inv_dx2 potential i) H) H.

(** what the five writes of [visit] leave in column [c] of the row of
    [(i, j)], over the previous content [old] *)
Definition visited (N : Z) (dx inv_dx2 : num A) (potential : string)
    (i j c : Z) (old : num A) : num A :=
  if decide (j < N - 1 ∧ c = idx N i (j + 1)) then inv_dx2
  else if decide (j > 0 ∧ c = idx N i (j - 1)) then inv_dx2
  else if decide (i < N - 1 ∧ c = idx N (i + 1) j) then inv_dx2
  else if decide (i > 0 ∧ c = idx N (i - 1) j) then inv_dx2
  else if decide (c = idx N i j) then
    num_lit A (-4) *. inv_dx2 +. V N dx potential i j
  else old.

(** entry [(r, c)] of the matrix the builder returns *)
Definition stencil (N : Z) (dx : num A) (potential : string) (r c : Z)
    : num A :=
  if decide (c = r) then
    num_lit A (-4) *. num_of_int A (N * N)
    +. V N dx potential (r / N) (r `mod` N)
  else if decide (c ∈ neighbour_indices N r) then num_of_int A (N * N)
  else num_lit A 0.

(** the matrix once the grid points of linear index below [k] have been
    visited *)
Definition partial (N : Z) (dx : num A) (potential : string) (k r c : Z)
    : num A :=
  if decide (r < k) then stencil N dx potential r c else num_lit A 0.

End program.
End Generic.

(** * Properties *)

(** ** Arrays *)

Section arrays.
Context {A : Type}.
Implicit Types (H : list (list A)) (n r c : Z) (v : A).

Lemma norm_index_inside (len : nat) k :
  0 ≤ k < Z.of_nat len → norm_index len k = Ok (Z.to_nat k).
Proof. intros Hk. unfold norm_index. by rewrite decide_True. Qed.

Lemma square_row n H r :
  square n H → 0 ≤ r < n →
  ∃ row, H !! Z.to_nat r = Some row ∧ Z.of_nat (length row) = n.
Proof.
  intros [Hlen Hrows] Hr.
  destruct (lookup_lt_is_Some_2 H (Z.to_nat r)) as [row Hrow]; [lia|].
  exists row. split; [done|].
  by apply (Forall_lookup_1 _ _ _ _ Hrows Hrow).
Qed.

Lemma getitem_lookup n H r c :
  square n H → 0 ≤ r < n → 0 ≤ c < n →
  ∃ row v, H !! Z.to_nat r = Some row ∧ row !! Z.to_nat c = Some v ∧
           getitem H r c = Ok v.
Proof.
  intros Hsq Hr Hc.
  destruct (square_row n H r Hsq Hr) as (row & Hrow & Hlen).
  destruct (lookup_lt_is_Some_2 row (Z.to_nat c)) as [v Hv]; [lia|].
  exists row, v. repeat split; [done..|].
  unfold getitem. rewrite norm_index_inside by (destruct Hsq; lia).
  simpl. rewrite Hrow. rewrite norm_index_inside by lia.
  simpl. by rewrite Hv.
Qed.

Lemma setitem_agrees n H f r c v :
  agrees n H f → 0 ≤ r < n → 0 ≤ c < n →
  ∃ H', setitem H r c v = Ok H' ∧
        agrees n H' (λ r' c', if decide (r' = r ∧ c' = c) then v else f r' c').
Proof.
  intros [Hsq Hf] Hr Hc.
  destruct (square_row n H r Hsq Hr) as (row & Hrow & Hlen).
  exists (<[Z.to_nat r := <[Z.to_nat c := v]> row]> H). split.
  { unfold setitem. rewrite norm_index_inside by (destruct Hsq; lia).
    simpl. rewrite Hrow. by rewrite norm_index_inside by lia. }
  assert (Hsq' : square n (<[Z.to_nat r := <[Z.to_nat c := v]> row]> H)).
  { destruct Hsq as [HlenH Hrows]. split.
    - by rewrite length_insert.
    - apply Forall_insert; [done|]. by rewrite length_insert. }
  split; [done|]. intros r' c' Hr' Hc'.
  destruct (getitem_lookup _ _ r' c' Hsq' Hr' Hc') as (row' & v' & Hrow' & Hv' & ->).
  specialize (Hf r' c' Hr' Hc').
  destruct (getitem_lookup _ _ r' c' Hsq Hr' Hc') as (row0 & v0 & Hrow0 & Hv0 & Hget).
  rewrite Hget in Hf. injection Hf as <-.
  destruct (decide (r' = r)) as [->|Hne].
  - rewrite list_lookup_insert_eq in Hrow' by (destruct Hsq; lia).
    injection Hrow' as <-. rewrite Hrow in Hrow0. injection Hrow0 as <-.
    destruct (decide (c' = c)) as [->|Hnec].
    + rewrite list_lookup_insert_eq in Hv' by lia.
      rewrite decide_True by done. congruence.
    + rewrite list_lookup_insert_ne in Hv' by lia.
      rewrite decide_False by tauto. congruence.
  - rewrite list_lookup_insert_ne in Hrow' by lia.
    rewrite decide_False by tauto. congruence.
Qed.

(** a write under a guard, [if P: H[r, c] = v] *)
Lemma guarded_setitem_agrees n H f (P : Prop) `{!Decision P} r c v :
  agrees n H f → (P → 0 ≤ r < n ∧ 0 ≤ c < n) →
  ∃ H', (if decide P then setitem H r c v else Ok H) = Ok H' ∧
        agrees n H' (λ r' c',
          if decide (P ∧ r' = r ∧ c' = c) then v else f r' c').
Proof.
  intros HH Hin. destruct (decide P) as [HP|HP].
  - destruct (Hin HP) as [Hr Hc].
    destruct (setitem_agrees n H f r c v HH Hr Hc) as (H' & -> & [Hsq HH']).
    exists H'. split; [done|]. split; [done|].
    intros r' c' Hr' Hc'. rewrite HH' by done.
    destruct (decide (r' = r ∧ c' = c)).
    + by rewrite decide_True by tauto.
    + by rewrite decide_False by tauto.
  - exists H. split; [done|]. destruct HH as [Hsq HH]. split; [done|].
    intros r' c' Hr' Hc'. rewrite HH by done. by rewrite decide_False by tauto.
Qed.

Lemma agrees_ext n H f g :
  agrees n H f →
  (∀ r c, 0 ≤ r < n → 0 ≤ c < n → f r c = g r c) →
  agrees n H g.
Proof.
  intros [Hsq Hf] Hfg. split; [done|].
  intros r c Hr Hc. rewrite Hf by done. by rewrite Hfg.
Qed.

Lemma agrees_unique n H f g r c :
  agrees n H f → agrees n H g → 0 ≤ r < n → 0 ≤ c < n → f r c = g r c.
Proof.
  intros [_ Hf] [_ Hg] Hr Hc.
  specialize (Hf r c Hr Hc). rewrite Hg in Hf by done. congruence.
Qed.
End arrays.

Section float_arrays.
Implicit Types (H : ndarray) (n r c : Z) (v : float64).

Lemma np_zeros_agrees n :
  0 ≤ n → ∃ H, np_zeros n n = Ok H ∧ agrees n H (λ _ _, 0%Qc).
Proof.
  intros Hn. eexists. split.
  { unfold np_zeros. rewrite decide_False by lia. done. }
  assert (Hsq : square n (replicate (Z.to_nat n) (replicate (Z.to_nat n) 0%Qc))).
  { split.
    - rewrite length_replicate. lia.
    - apply Forall_replicate. rewrite length_replicate. lia. }
  split; [done|]. intros r c Hr Hc.
  destruct (getitem_lookup _ _ r c Hsq Hr Hc) as (row & v & Hrow & Hv & ->).
  apply lookup_replicate in Hrow as [-> _].
  by apply lookup_replicate in Hv as [-> _].
Qed.

Lemma getrow_agrees n H f r :
  agrees n H f → 0 ≤ r < n → getrow H r = Ok (f r <$> seqZ 0 n).
Proof.
  intros [Hsq Hf] Hr.
  destruct (square_row n H r Hsq Hr) as (row & Hrow & Hlen).
  unfold getrow. rewrite norm_index_inside by (destruct Hsq; lia).
  simpl. rewrite Hrow. f_equal. apply list_eq. intros k.
  rewrite list_lookup_fmap.
  destruct (decide (Z.of_nat k < n)) as [Hk|Hk].
  - rewrite lookup_seqZ_lt by done. rewrite Z.add_0_l. simpl.
    destruct (getitem_lookup n H r (Z.of_nat k) Hsq Hr) as (row' & v & Hrow' & Hv & Hget);
      [lia|].
    rewrite Hf in Hget by lia. rewrite Nat2Z.id in Hv. congruence.
  - rewrite lookup_seqZ_ge by lia. simpl. apply lookup_ge_None. lia.
Qed.

Lemma np_sum_add {A} (f g : A → float64) (l : list A) :
  np_sum ((λ x, f x + g x)%Qc <$> l) = (np_sum (f <$> l) + np_sum (g <$> l))%Qc.
Proof.
  unfold np_sum. induction l as [|x l IH]; csimpl.
  - ring.
  - rewrite IH. ring.
Qed.

(** the sum of a constant over the positions that satisfy [P] *)
Lemma np_sum_indicator {A} (P : A → Prop) `{!∀ x, Decision (P x)} (a : float64)
    (l : list A) :
  np_sum ((λ x, if decide (P x) then a else 0%Qc) <$> l) =
  (Qc_of_Z (Z.of_nat (length (filter P l))) * a)%Qc.
Proof.
  unfold np_sum. induction l as [|x l IH]; csimpl.
  - change (Z.of_nat 0) with 0. rewrite Z2Qc_inj_0. ring.
  - rewrite filter_cons, IH. case_decide; simpl length.
    + rewrite Nat2Z.inj_succ, <-Z.add_1_r, Z2Qc_inj_add, Z2Qc_inj_1. ring.
    + ring.
Qed.

Lemma filter_eq_seqZ n r :
  0 ≤ r < n → filter (λ c, c = r) (seqZ 0 n) ≡ₚ [r].
Proof.
  intros Hr. apply NoDup_Permutation.
  - apply NoDup_filter, NoDup_seqZ.
  - apply NoDup_singleton.
  - intros c. rewrite list_elem_of_filter, elem_of_seqZ, list_elem_of_singleton. lia.
Qed.

Lemma filter_elem_of_seqZ n (l : list Z) :
  NoDup l → (∀ c, c ∈ l → 0 ≤ c < n) → filter (.∈ l) (seqZ 0 n) ≡ₚ l.
Proof.
  intros Hnd Hl. apply NoDup_Permutation.
  - apply NoDup_filter, NoDup_seqZ.
  - done.
  - intros c. rewrite list_elem_of_filter, elem_of_seqZ. split; [tauto|].
    intros Hc. split; [done|]. apply Hl in Hc. lia.
Qed.
End float_arrays.

(** ** Loops *)

Section loops.
Context {S : Type} (body : Z → S → result S) (P : Z → S → Prop).

(** an invariant indexed by the loop counter is carried through
    [for k in range(a, a + n)] *)
Lemma for_each_seqZ a n s :
  0 ≤ n → P a s →
  (∀ k t, a ≤ k < a + n → P k t → ∃ t', body k t = Ok t' ∧ P (k + 1) t') →
  ∃ s', for_each (seqZ a n) body s = Ok s' ∧ P (a + n) s'.
Proof.
  intros Hn. remember (Z.to_nat n) as m eqn:Hm.
  revert a n s Hn Hm. induction m as [|m IH]; intros a n s Hn Hm Hs Hstep.
  - rewrite seqZ_nil by lia. exists s. split; [done|].
    by replace (a + n) with a by lia.
  - rewrite seqZ_cons by lia. simpl.
    destruct (Hstep a s) as (t & Ht & HP); [lia|done|].
    rewrite Ht. simpl.
    destruct (IH (Z.succ a) (Z.pred n) t) as (s' & Hs' & HP').
    + lia.
    + lia.
    + by replace (Z.succ a) with (a + 1) by lia.
    + intros k u Hk. apply Hstep. lia.
    + exists s'. split; [done|].
      by replace (a + n) with (Z.succ a + Z.pred n) by lia.
Qed.
End loops.

Lemma for_each_ext {A S : Type} (f g : A → S → result S) (xs : list A) (s : S) :
  (∀ x t, f x t = g x t) → for_each xs f s = for_each xs g s.
Proof.
  intros Hfg. revert s. induction xs as [|x xs IH]; intros s; simpl; [done|].
  rewrite Hfg. destruct (g x s); simpl; [apply IH|done].
Qed.


(** ** The grid and its linear indices *)

Section grid.
Context (N : Z) (HN : 1 ≤ N).

Lemma idx_range i j : 0 ≤ i < N → 0 ≤ j < N → 0 ≤ idx N i j < N * N.
Proof. unfold idx. nia. Qed.

Lemma idx_div i j : 0 ≤ j < N → idx N i j / N = i.
Proof.
  intros Hj. symmetry. apply (Z.div_unique _ _ _ j); [lia|]. unfold idx. lia.
Qed.

Lemma idx_mod i j : 0 ≤ j < N → idx N i j `mod` N = j.
Proof.
  intros Hj. symmetry. apply (Z.mod_unique _ _ i); [lia|]. unfold idx. lia.
Qed.

Lemma idx_inj i j i' j' :
  0 ≤ j < N → 0 ≤ j' < N → idx N i j = idx N i' j' → i = i' ∧ j = j'.
Proof.
  intros Hj Hj' Heq. split.
  - rewrite <-(idx_div i j), <-(idx_div i' j') by done. by rewrite Heq.
  - rewrite <-(idx_mod i j), <-(idx_mod i' j') by done. by rewrite Heq.
Qed.

Lemma grid_point_idx i j : 0 ≤ j < N → grid_point N (idx N i j) = (i, j).
Proof. intros Hj. unfold grid_point. by rewrite idx_div, idx_mod. Qed.

Lemma grid_point_range r :
  0 ≤ r < N * N →
  0 ≤ r / N < N ∧ 0 ≤ r `mod` N < N ∧ idx N (r / N) (r `mod` N) = r.
Proof.
  intros Hr. split; [|split].
  - split; [apply Z.div_pos; lia|]. apply Z.div_lt_upper_bound; lia.
  - apply Z.mod_pos_bound. lia.
  - unfold idx. rewrite (Z.div_mod r N) at 3 by lia. lia.
Qed.

Lemma elem_of_neighbours i j p :
  p ∈ neighbours N (i, j) ↔
  in_grid N p ∧
  (p = (i - 1, j) ∨ p = (i + 1, j) ∨ p = (i, j - 1) ∨ p = (i, j + 1)).
Proof.
  unfold neighbours. rewrite list_elem_of_filter. simpl.
  rewrite !elem_of_cons, elem_of_nil. tauto.
Qed.

Lemma elem_of_neighbour_indices i j c :
  0 ≤ i < N → 0 ≤ j < N →
  c ∈ neighbour_indices N (idx N i j) ↔
  (i > 0 ∧ c = idx N (i - 1) j) ∨ (i < N - 1 ∧ c = idx N (i + 1) j) ∨
  (j > 0 ∧ c = idx N i (j - 1)) ∨ (j < N - 1 ∧ c = idx N i (j + 1)).
Proof.
  intros Hi Hj. unfold neighbour_indices.
  rewrite grid_point_idx by done. rewrite list_elem_of_fmap.
  setoid_rewrite elem_of_neighbours. unfold in_grid. split.
  - intros ([a b] & -> & [Ha Hb] & Hp). simpl in *.
    destruct Hp as [Hp|[Hp|[Hp|Hp]]]; injection Hp as -> ->;
      [left|right; left|right; right; left|right; right; right];
      (split; [lia|done]).
  - intros [[? ->]|[[? ->]|[[? ->]|[? ->]]]];
      [exists (i - 1, j)|exists (i + 1, j)|exists (i, j - 1)|exists (i, j + 1)];
      simpl; (split; [done|split; [lia|tauto]]).
Qed.
(** two grid points are neighbours when they differ by one step along
    one axis *)
Lemma neighbour_indices_step i j i' j' :
  0 ≤ i < N → 0 ≤ j < N → 0 ≤ i' < N → 0 ≤ j' < N →
  idx N i' j' ∈ neighbour_indices N (idx N i j) ↔
  (j' = j ∧ (i' = i - 1 ∨ i' = i + 1)) ∨ (i' = i ∧ (j' = j - 1 ∨ j' = j + 1)).
Proof.
  intros Hi Hj Hi' Hj'. rewrite elem_of_neighbour_indices by done. split.
  - intros [[? Heq]|[[? Heq]|[[? Heq]|[? Heq]]]];
      apply idx_inj in Heq; lia.
  - intros [[-> [->| ->]]|[-> [->| ->]]]; lia || tauto.
Qed.

Lemma neighbour_indices_sym r c :
  0 ≤ r < N * N → 0 ≤ c < N * N →
  c ∈ neighbour_indices N r ↔ r ∈ neighbour_indices N c.
Proof.
  intros Hr Hc.
  destruct (grid_point_range r Hr) as (Hi & Hj & <-).
  destruct (grid_point_range c Hc) as (Hi' & Hj' & <-).
  rewrite !neighbour_indices_step by done. lia.
Qed.

Lemma neighbour_indices_range r c :
  0 ≤ r < N * N → c ∈ neighbour_indices N r → 0 ≤ c < N * N ∧ c ≠ r.
Proof.
  intros Hr. destruct (grid_point_range r Hr) as (Hi & Hj & <-).
  rewrite elem_of_neighbour_indices by done. unfold idx. nia.
Qed.

Lemma neighbour_indices_NoDup r :
  0 ≤ r < N * N → NoDup (neighbour_indices N r).
Proof.
  intros Hr. unfold neighbour_indices.
  destruct (grid_point_range r Hr) as (Hi & Hj & _).
  apply NoDup_fmap_2_strong.
  - intros [a b] [a' b'] [[_ Hb] _]%elem_of_neighbours [[_ Hb'] _]%elem_of_neighbours Heq.
    simpl in *. apply idx_inj in Heq as [-> ->]; done.
  - unfold neighbours. apply NoDup_filter. simpl.
    repeat (apply NoDup_cons; split; [rewrite ?elem_of_cons, ?elem_of_nil; intros Hx;
      repeat (destruct Hx as [Hx|Hx]; [injection Hx; lia|]); done|]).
    apply NoDup_nil_2.
Qed.

Lemma neighbours_length p : (length (neighbours N p) ≤ 4)%nat.
Proof. unfold neighbours. etrans; [apply length_filter|]. done. Qed.

Lemma neighbours_border_length p :
  on_border N p → (length (neighbours N p) < 4)%nat.
Proof.
  destruct p as [i j]. unfold on_border, neighbours. simpl. intros Hb.
  rewrite !filter_cons, filter_nil. unfold in_grid. simpl.
  repeat case_decide; simpl; lia.
Qed.

Lemma neighbours_interior_length p :
  in_grid N p → ¬ on_border N p → length (neighbours N p) = 4%nat.
Proof.
  destruct p as [i j]. unfold on_border, neighbours, in_grid. simpl. intros Hg Hb.
  rewrite !filter_cons, filter_nil. unfold in_grid. simpl.
  repeat case_decide; simpl; lia.
Qed.
End grid.

(** ** The builder *)

Section builder.
Context (N : Z) (HN : 1 ≤ N) (potential : string).

Local Abbreviation dx := (lit 1 / float_of_int N)%Qc.
Local Abbreviation inv_dx2 := (float_of_int (N * N)).

Lemma visit_agrees H f i j :
  agrees (N * N) H f → 0 ≤ i < N → 0 ≤ j < N →
  ∃ H', visit N dx inv_dx2 potential i j H = Ok H' ∧
        agrees (N * N) H' (λ r c,
          if decide (r = idx N i j)
          then visited N dx inv_dx2 potential i j c (f r c)
          else f r c).
Proof.
  intros HH Hi Hj. unfold visit.
  pose proof (idx_range N HN i j Hi Hj) as Hrow.
  destruct (setitem_agrees _ _ _ (idx N i j) (idx N i j)
    (lit (-4) * inv_dx2 + V N dx potential i j)%Qc HH Hrow Hrow)
    as (H1 & -> & HH1); simpl.
  destruct (guarded_setitem_agrees _ _ _ (i > 0)
    (idx N i j) (idx N (i - 1) j) inv_dx2 HH1)
    as (H2 & -> & HH2); simpl.
  { intros ?. split; [done|]. apply idx_range; lia. }
  destruct (guarded_setitem_agrees _ _ _ (i < N - 1)
    (idx N i j) (idx N (i + 1) j) inv_dx2 HH2)
    as (H3 & -> & HH3); simpl.
  { intros ?. split; [done|]. apply idx_range; lia. }
  destruct (guarded_setitem_agrees _ _ _ (j > 0)
    (idx N i j) (idx N i (j - 1)) inv_dx2 HH3)
    as (H4 & -> & HH4); simpl.
  { intros ?. split; [done|]. apply idx_range; lia. }
  destruct (guarded_setitem_agrees _ _ _ (j < N - 1)
    (idx N i j) (idx N i (j + 1)) inv_dx2 HH4)
    as (H5 & -> & HH5); simpl.
  { intros ?. split; [done|]. apply idx_range; lia. }
  exists H5. split; [done|]. eapply agrees_ext; [exact HH5|].
  intros r c _ _. unfold visited. simpl.
  repeat case_decide; tauto || lia.
Qed.
Lemma visited_stencil i j c :
  0 ≤ i < N → 0 ≤ j < N →
  visited N dx inv_dx2 potential i j c 0%Qc = stencil N potential (idx N i j) c.
Proof.
  intros Hi Hj. unfold visited, stencil.
  rewrite idx_div, idx_mod by done.
  pose proof (elem_of_neighbour_indices N i j c Hi Hj) as Hnb.
  destruct (decide (c ∈ neighbour_indices N (idx N i j))) as [Hin|Hin];
    rewrite Hnb in Hin; unfold idx in *;
    repeat case_decide; done || (exfalso; lia).
Qed.

Lemma visit_partial H i j :
  agrees (N * N) H (partial N potential (idx N i j)) →
  0 ≤ i < N → 0 ≤ j < N →
  ∃ H', visit N dx inv_dx2 potential i j H = Ok H' ∧
        agrees (N * N) H' (partial N potential (idx N i j + 1)).
Proof.
  intros HH Hi Hj.
  destruct (visit_agrees H _ i j HH Hi Hj) as (H' & Hv & HH').
  exists H'. split; [done|]. eapply agrees_ext; [exact HH'|].
  intros r c _ _. simpl. unfold partial. destruct (decide (r = idx N i j)) as [->|Hne].
  - rewrite decide_False by lia. rewrite decide_True by lia.
    by apply visited_stencil.
  - destruct (decide (r < idx N i j)).
    + by rewrite decide_True by lia.
    + by rewrite decide_False by lia.
Qed.

(** the inner loop visits row [i] of the grid *)
Lemma inner_loop_partial H i :
  agrees (N * N) H (partial N potential (i * N)) → 0 ≤ i < N →
  ∃ H', for_each (range N) (visit N dx inv_dx2 potential i) H = Ok H' ∧
        agrees (N * N) H' (partial N potential ((i + 1) * N)).
Proof.
  intros HH Hi.
  destruct (for_each_seqZ (visit N dx inv_dx2 potential i)
    (λ j H, agrees (N * N) H (partial N potential (idx N i j))) 0 N H)
    as (H' & Hloop & HH').
  - lia.
  - unfold idx. by replace (i * N + 0) with (i * N) by lia.
  - intros j H0 Hj HH0. destruct (visit_partial H0 i j HH0 Hi) as (H1 & ? & HH1); [lia|].
    exists H1. split; [done|]. unfold idx in *.
    by replace (i * N + (j + 1)) with (i * N + j + 1) by lia.
  - exists H'. split; [done|]. unfold idx in HH'.
    by replace ((i + 1) * N) with (i * N + (0 + N)) by lia.
Qed.

(** the matrix the builder returns, entry by entry *)
Lemma build_2d_hamiltonian_stencil :
  ∃ H, build_2d_hamiltonian N potential = Ok H ∧
       agrees (N * N) H (stencil N potential).
Proof.
  unfold build_2d_hamiltonian, truediv.
  rewrite decide_False; last first.
  { unfold float_of_int. rewrite <-Z2Qc_inj_0. intros ?%Z2Qc_inj. lia. }
  simpl. destruct (np_zeros_agrees (N * N)) as (H0 & -> & HH0); [nia|].
  simpl.
  destruct (for_each_seqZ
    (λ i H, for_each (range N) (visit N dx inv_dx2 potential i) H)
    (λ i H, agrees (N * N) H (partial N potential (i * N))) 0 N H0)
    as (H' & Hloop & HH').
  - lia.
  - eapply agrees_ext; [exact HH0|]. intros r c Hr Hc. simpl.
    unfold partial. by rewrite decide_False by lia.
  - intros i H1 Hi HH1. apply inner_loop_partial; [done|lia].
  - exists H'. split; [done|]. eapply agrees_ext; [exact HH'|].
    intros r c Hr Hc. unfold partial. by rewrite decide_True by lia.
Qed.
End builder.

(** ** The builder over an arithmetic *)

Section generic_builder.
Context (A : arithmetic) (N : Z) (HN : 1 ≤ N) (potential : string).
Context (dx : num A).

Local Abbreviation inv_dx2 := (num_of_int A (N * N)).

Lemma generic_np_zeros_agrees n :
  0 ≤ n →
  ∃ H, Generic.np_zeros A n n = Ok H ∧ agrees n H (λ _ _, num_lit A 0).
Proof.
  intros Hn. eexists. split.
  { unfold Generic.np_zeros. rewrite decide_False by lia. done. }
  assert (Hsq : square n
    (replicate (Z.to_nat n) (replicate (Z.to_nat n) (num_lit A 0)))).
  { split.
    - rewrite length_replicate. lia.
    - apply Forall_replicate. rewrite length_replicate. lia. }
  split; [done|]. intros r c Hr Hc.
  destruct (getitem_lookup _ _ r c Hsq Hr Hc) as (row & v & Hrow & Hv & ->).
  apply lookup_replicate in Hrow as [-> _].
  by apply lookup_replicate in Hv as [-> _].
Qed.

Lemma generic_visit_agrees H f i j :
  agrees (N * N) H f → 0 ≤ i < N → 0 ≤ j < N →
  ∃ H', Generic.visit A N dx inv_dx2 potential i j H = Ok H' ∧
        agrees (N * N) H' (λ r c,
          if decide (r = idx N i j)
          then Generic.visited A N dx inv_dx2 potential i j c (f r c)
          else f r c).
Proof.
  intros HH Hi Hj. unfold Generic.visit.
  pose proof (idx_range N HN i j Hi Hj) as Hrow.
  destruct (setitem_agrees _ _ _ (idx N i j) (idx N i j)
    (num_add A (num_mul A (num_lit A (-4)) inv_dx2)
       (Generic.V A N dx potential i j)) HH Hrow Hrow)
    as (H1 & -> & HH1); simpl.
  destruct (guarded_setitem_agrees _ _ _ (i > 0)
    (idx N i j) (idx N (i - 1) j) inv_dx2 HH1)
    as (H2 & -> & HH2); simpl.
  { intros ?. split; [done|]. apply idx_range; lia. }
  destruct (guarded_setitem_agrees _ _ _ (i < N - 1)
    (idx N i j) (idx N (i + 1) j) inv_dx2 HH2)
    as (H3 & -> & HH3); simpl.
  { intros ?. split; [done|]. apply idx_range; lia. }
  destruct (guarded_setitem_agrees _ _ _ (j > 0)
    (idx N i j) (idx N i (j - 1)) inv_dx2 HH3)
    as (H4 & -> & HH4); simpl.
  { intros ?. split; [done|]. apply idx_range; lia. }
  destruct (guarded_setitem_agrees _ _ _ (j < N - 1)
    (idx N i j) (idx N i (j + 1)) inv_dx2 HH4)
    as (H5 & -> & HH5); simpl.
  { intros ?. split; [done|]. apply idx_range; lia. }
  exists H5. split; [done|]. eapply agrees_ext; [exact HH5|].
  intros r c _ _. unfold Generic.visited. simpl.
  repeat case_decide; tauto || lia.
Qed.

Lemma generic_visited_stencil i j c :
  0 ≤ i < N → 0 ≤ j < N →
  Generic.visited A N dx inv_dx2 potential i j c (num_lit A 0) =
  Generic.stencil A N dx potential (idx N i j) c.
Proof.
  intros Hi Hj. unfold Generic.visited, Generic.stencil.
  rewrite idx_div, idx_mod by done.
  pose proof (elem_of_neighbour_indices N i j c Hi Hj) as Hnb.
  destruct (decide (c ∈ neighbour_indices N (idx N i j))) as [Hin|Hin];
    rewrite Hnb in Hin; unfold idx in *;
    repeat case_decide; done || (exfalso; lia).
Qed.

Lemma generic_visit_partial H i j :
  agrees (N * N) H (Generic.partial A N dx potential (idx N i j)) →
  0 ≤ i < N → 0 ≤ j < N →
  ∃ H', Generic.visit A N dx inv_dx2 potential i j H = Ok H' ∧
        agrees (N * N) H' (Generic.partial A N dx potential (idx N i j + 1)).
Proof.
  intros HH Hi Hj.
  destruct (generic_visit_agrees H _ i j HH Hi Hj) as (H' & Hv & HH').
  exists H'. split; [done|]. eapply agrees_ext; [exact HH'|].
  intros r c _ _. simpl. unfold Generic.partial.
  destruct (decide (r = idx N i j)) as [->|Hne].
  - rewrite decide_False by lia. rewrite decide_True by lia.
    by apply generic_visited_stencil.
  - destruct (decide (r < idx N i j)).
    + by rewrite decide_True by lia.
    + by rewrite decide_False by lia.
Qed.

Lemma generic_inner_loop H i :
  agrees (N * N) H (Generic.partial A N dx potential (i * N)) → 0 ≤ i < N →
  ∃ H', for_each (range N) (Generic.visit A N dx inv_dx2 potential i) H = Ok H' ∧
        agrees (N * N) H' (Generic.partial A N dx potential ((i + 1) * N)).
Proof.
  intros HH Hi.
  destruct (for_each_seqZ (Generic.visit A N dx inv_dx2 potential i)
    (λ j H, agrees (N * N) H (Generic.partial A N dx potential (idx N i j)))
    0 N H) as (H' & Hloop & HH').
  - lia.
  - unfold idx. by replace (i * N + 0) with (i * N) by lia.
  - intros j H0 Hj HH0.
    destruct (generic_visit_partial H0 i j HH0 Hi) as (H1 & ? & HH1); [lia|].
    exists H1. split; [done|]. unfold idx in *.
    by replace (i * N + (j + 1)) with (i * N + j + 1) by lia.
  - exists H'. split; [done|]. unfold idx in HH'.
    by replace ((i + 1) * N) with (i * N + (0 + N)) by lia.
Qed.

(** when the division that computes [dx] returns, the builder returns,
    and its matrix is the stencil entry by entry *)
Lemma generic_build_stencil :
  Generic.truediv A (num_lit A 1) (num_of_int A N) = Ok dx →
  ∃ H, Generic.build_2d_hamiltonian A N potential = Ok H ∧
       agrees (N * N) H (Generic.stencil A N dx potential).
Proof.
  intros Hdx. unfold Generic.build_2d_hamiltonian. rewrite Hdx. simpl.
  destruct (generic_np_zeros_agrees (N * N)) as (H0 & -> & HH0); [nia|].
  simpl.
  destruct (for_each_seqZ
    (λ i H, for_each (range N) (Generic.visit A N dx inv_dx2 potential i) H)
    (λ i H, agrees (N * N) H (Generic.partial A N dx potential (i * N))) 0 N H0)
    as (H' & Hloop & HH').
  - lia.
  - eapply agrees_ext; [exact HH0|]. intros r c Hr Hc. simpl.
    unfold Generic.partial. by rewrite decide_False by lia.
  - intros i H1 Hi HH1. apply generic_inner_loop; [done|lia].
  - exists H'. split; [done|]. eapply agrees_ext; [exact HH'|].
    intros r c Hr Hc. unfold Generic.partial. by rewrite decide_True by lia.
Qed.
End generic_builder.

(** in exact arithmetic the program over an arithmetic is the builder
    defined first *)
Lemma generic_exact_V (N : Z) (dx : float64) (potential : string) (i j : Z) :
  Generic.V exact N dx potential i j = V N dx potential i j.
Proof.
  unfold Generic.V, V. simpl. unfold lit. rewrite Z2Qc_inj_0. done.
Qed.

Lemma generic_exact (N : Z) (potential : string) :
  Generic.build_2d_hamiltonian exact N potential =
  build_2d_hamiltonian N potential.
Proof.
  unfold Generic.build_2d_hamiltonian, build_2d_hamiltonian.
  unfold Generic.truediv, truediv. simpl.
  destruct (decide (float_of_int N = 0%Qc)) as [Hz|Hz].
  - rewrite bool_decide_eq_true_2 by done. reflexivity.
  - rewrite bool_decide_eq_false_2 by done. simpl.
    unfold Generic.np_zeros, np_zeros. simpl. unfold lit at 2.
    rewrite Z2Qc_inj_0. destruct (decide (N * N < 0 ∨ N * N < 0)); [done|].
    simpl. apply for_each_ext. intros i H. apply for_each_ext. intros j H'.
    unfold Generic.visit, visit. by rewrite generic_exact_V.
Qed.

(** ** Entries of the Hamiltonian *)

Lemma float_of_int_square_nonzero (N : Z) :
  1 ≤ N → float_of_int (N * N) ≠ 0%Qc.
Proof.
  intros HN. unfold float_of_int. rewrite <-Z2Qc_inj_0. intros ?%Z2Qc_inj. nia.
Qed.

Lemma stencil_off_diagonal (N : Z) (potential : string) (r c : Z) :
  c ≠ r →
  stencil N potential r c =
  if decide (c ∈ neighbour_indices N r) then float_of_int (N * N) else 0%Qc.
Proof. intros Hne. unfold stencil. by rewrite decide_False by done. Qed.

Lemma stencil_sym (N : Z) (potential : string) (r c : Z) :
  1 ≤ N → 0 ≤ r < N * N → 0 ≤ c < N * N →
  stencil N potential r c = stencil N potential c r.
Proof.
  intros HN Hr Hc. destruct (decide (c = r)) as [->|Hne]; [done|].
  rewrite !stencil_off_diagonal by done.
  pose proof (neighbour_indices_sym N HN r c Hr Hc) as Hsym.
  destruct (decide (c ∈ neighbour_indices N r)).
  - by rewrite decide_True by tauto.
  - by rewrite decide_False by tauto.
Qed.

Lemma coupling_terms_stencil (N : Z) (potential : string) (H : ndarray) (r : Z) :
  1 ≤ N → agrees (N * N) H (stencil N potential) → 0 ≤ r < N * N →
  coupling_terms (N * N) H r ≡ₚ neighbour_indices N r.
Proof.
  intros HN [_ Hget] Hr. apply NoDup_Permutation.
  - apply NoDup_filter, NoDup_seqZ.
  - by apply neighbour_indices_NoDup.
  - intros c. unfold coupling_terms, coupled.
    rewrite list_elem_of_filter, elem_of_seqZ. split.
    + intros [[Hne Hnz] Hc]. rewrite Hget, stencil_off_diagonal in Hnz by (done || lia).
      by destruct (decide (c ∈ neighbour_indices N r)).
    + intros Hin. destruct (neighbour_indices_range N HN r c Hr Hin) as [Hc Hne].
      split; [|lia]. split; [done|].
      rewrite Hget, stencil_off_diagonal by done. rewrite decide_True by done.
      intros [=Heq]. nia.
Qed.


(** C2: for [N >= 1], an off-diagonal entry [H[r, r']] is [N^2] when
    [r'] is the linear index of an up, down, left or right neighbour of
    the grid point of [r] that lies in the grid, and [0] otherwise.  The
    neighbours are one step away along one axis, so nothing wraps around,
    and the row of a grid point on the border has fewer than four
    coupling terms. *)
Theorem off_diagonal_entries (N : Z) (potential : string) :
  1 ≤ N →
  ∃ H, build_2d_hamiltonian N potential = Ok H ∧
    ∀ r, 0 ≤ r < N * N →
      (∀ r', 0 ≤ r' < N * N → r' ≠ r →
         getitem H r r' =
           Ok (if decide (r' ∈ neighbour_indices N r)
               then float_of_int (N * N) else 0%Qc) ∧
         (r' ∈ neighbour_indices N r ↔
          Z.abs (r' / N - r / N) + Z.abs (r' `mod` N - r `mod` N) = 1)) ∧
      coupling_terms (N * N) H r ≡ₚ neighbour_indices N r ∧
      (on_border N (grid_point N r) →
       (length (coupling_terms (N * N) H r) < 4)%nat).
Proof.
  intros HN.
  destruct (build_2d_hamiltonian_stencil N HN potential) as (H & HH & Hag).
  exists H. split; [done|]. intros r Hr. split; [|split].
  - intros r' Hr' Hne. split.
    + destruct Hag as [_ Hget]. rewrite Hget by done.
      f_equal. by apply stencil_off_diagonal.
    + destruct (grid_point_range N HN r Hr) as (Hi & Hj & Hidx).
      destruct (grid_point_range N HN r' Hr') as (Hi' & Hj' & Hidx').
      rewrite <-Hidx at 1. rewrite <-Hidx' at 1.
      rewrite neighbour_indices_step by done. lia.
  - by eapply coupling_terms_stencil.
  - intros Hb. erewrite Permutation_length by by eapply coupling_terms_stencil.
    unfold neighbour_indices. rewrite length_fmap.
    by apply neighbours_border_length.
Qed.

(** C3: for [N >= 1] and any kind, the matrix the builder returns is an
    [N^2] x [N^2] array with [H[r, r'] = H[r', r]] for all indices; the
    builder has no step that symmetrizes it. *)
Theorem hamiltonian_symmetric (N : Z) (potential : string) :
  1 ≤ N →
  ∃ H, build_2d_hamiltonian N potential = Ok H ∧ square (N * N) H ∧
    ∀ r r', 0 ≤ r < N * N → 0 ≤ r' < N * N → getitem H r r' = getitem H r' r.
Proof.
  intros HN.
  destruct (build_2d_hamiltonian_stencil N HN potential) as (H & HH & [Hsq Hget]).
  exists H. split; [done|]. split; [done|]. intros r r' Hr Hr'.
  rewrite !Hget by done. f_equal. by apply stencil_sym.
Qed.

(** ** Row sums *)

Lemma stencil_well_split (N r c : Z) :
  1 ≤ N → 0 ≤ r < N * N →
  stencil N "well" r c =
  ((if decide (c = r) then lit (-4) * float_of_int (N * N) else 0)
   + (if decide (c ∈ neighbour_indices N r) then float_of_int (N * N) else 0))%Qc.
Proof.
  intros HN Hr. unfold stencil, V. rewrite (decide_True (P := "well" = "well")) by done.
  destruct (decide (c = r)) as [->|Hne].
  - rewrite decide_False; [ring|].
    intros Hin. by destruct (neighbour_indices_range N HN r r Hr Hin).
  - destruct (decide (c ∈ neighbour_indices N r)); ring.
Qed.

Lemma row_sum_well (N : Z) (H : ndarray) (r : Z) :
  1 ≤ N → agrees (N * N) H (stencil N "well") → 0 ≤ r < N * N →
  row_sum H r =
  Ok ((Qc_of_Z (Z.of_nat (length (neighbour_indices N r))) - lit 4)
      * float_of_int (N * N))%Qc.
Proof.
  intros HN HH Hr. unfold row_sum.
  rewrite (getrow_agrees _ _ _ _ HH Hr). simpl. f_equal.
  rewrite (list_fmap_ext _ (λ c,
    (if decide (c = r) then lit (-4) * float_of_int (N * N) else 0)
    + (if decide (c ∈ neighbour_indices N r) then float_of_int (N * N) else 0))%Qc
    (seqZ 0 (N * N))); [|intros; by apply stencil_well_split].
  rewrite np_sum_add.
  rewrite (np_sum_indicator (λ c, c = r)), (np_sum_indicator (.∈ neighbour_indices N r)).
  rewrite (Permutation_length (filter_eq_seqZ (N * N) r Hr)).
  rewrite (Permutation_length (filter_elem_of_seqZ (N * N) (neighbour_indices N r)
    (neighbour_indices_NoDup N HN r Hr)
    (λ c Hc, proj1 (neighbour_indices_range N HN r c Hr Hc)))).
  simpl length. change (Z.of_nat 1) with 1. rewrite Z2Qc_inj_1.
  unfold lit. change 4 with (2 + 2). change (-4) with (-(2 + 2)).
  rewrite Z2Qc_inj_opp, !Z2Qc_inj_add, Z2Qc_inj_2. ring.
Qed.

(** C8, as amended: for [N >= 1], row [r] of the matrix for the kind
    "well" sums to [(k - 4) * N^2], where [k] is the number of neighbours
    of the grid point of [r] that lie in the grid; for a grid point that
    is not on the border this is [V(i, j) = 0]. *)
Theorem row_sums_well (N : Z) :
  1 ≤ N →
  ∃ H, build_2d_hamiltonian N "well" = Ok H ∧
    ∀ r, 0 ≤ r < N * N →
      row_sum H r =
        Ok ((Qc_of_Z (Z.of_nat (length (neighbour_indices N r))) - lit 4)
            * float_of_int (N * N))%Qc ∧
      (¬ on_border N (grid_point N r) →
       row_sum H r =
         Ok (V N (lit 1 / float_of_int N) "well" (r / N) (r `mod` N))).
Proof.
  intros HN.
  destruct (build_2d_hamiltonian_stencil N HN "well") as (H & HH & Hag).
  exists H. split; [done|]. intros r Hr.
  rewrite (row_sum_well N H r HN Hag Hr). split; [done|].
  intros Hb. f_equal. unfold neighbour_indices. rewrite length_fmap.
  rewrite neighbours_interior_length; [| |done].
  - unfold V. rewrite decide_True by done. unfold lit.
    change (Z.of_nat 4) with 4. ring.
  - destruct (grid_point_range N HN r Hr) as (? & ? & _). by split.
Qed.

(** ** Potential kinds and grid sizes *)

Lemma V_unknown (N : Z) (dx : float64) (potential : string) (i j : Z) :
  potential ≠ "well" → potential ≠ "harmonic" →
  V N dx potential i j = V N dx "well" i j.
Proof.
  intros Hw Hh. unfold V.
  by rewrite (decide_False (P := potential = _)), (decide_False (P := potential = _)).
Qed.

(** C7: for [N >= 1] and a kind other than "well" and "harmonic", the
    builder does not raise and returns the matrix it returns for "well". *)
Theorem unknown_kind_as_well (N : Z) (potential : string) :
  1 ≤ N → potential ≠ "well" → potential ≠ "harmonic" →
  ∃ H, build_2d_hamiltonian N potential = Ok H ∧
       build_2d_hamiltonian N "well" = Ok H.
Proof.
  intros HN Hw Hh.
  destruct (build_2d_hamiltonian_stencil N HN "well") as (H & HH & _).
  exists H. split; [|done]. rewrite <-HH.
  unfold build_2d_hamiltonian.
  destruct (truediv _ _) as [dx|]; simpl; [|done].
  destruct (np_zeros _ _) as [H0|]; simpl; [|done].
  apply for_each_ext. intros i H1. apply for_each_ext. intros j H2.
  unfold visit. by rewrite V_unknown.
Qed.

(** C10, as amended: for a negative [N] the builder does not raise and
    returns the [N * N] x [N * N] matrix of zeros, as the loops run over
    an empty range; for [N = 0] the division that computes [dx] raises. *)
Theorem nonpositive_size (N : Z) (potential : string) :
  N ≤ 0 →
  if decide (N = 0)
  then build_2d_hamiltonian N potential = Raise ZeroDivisionError
  else ∃ H, build_2d_hamiltonian N potential = Ok H ∧
            agrees (N * N) H (λ _ _, 0%Qc).
Proof.
  intros HN. unfold build_2d_hamiltonian, truediv, range. case_decide as H0.
  - subst N. done.
  - rewrite decide_False; last first.
    { unfold float_of_int. rewrite <-Z2Qc_inj_0. by intros ?%Z2Qc_inj. }
    simpl. destruct (np_zeros_agrees (N * N)) as (H & -> & HH); [nia|].
    simpl. rewrite seqZ_nil by lia. simpl. by exists H.
Qed.

(** ** Indexing by an index array, columns and slices *)

Section indexing.
Implicit Types (a : list float64) (M : ndarray) (ix : list Z) (k q n : Z).

Lemma map_result_ok {A B} (f : A → result B) (g : A → B) (xs : list A) :
  Forall (λ x, f x = Ok (g x)) xs → map_result f xs = Ok (g <$> xs).
Proof.
  induction 1 as [|x xs Hx _ IH]; simpl; [done|].
  rewrite Hx. simpl. rewrite IH. done.
Qed.

Lemma item_inside a q :
  0 ≤ q < Z.of_nat (length a) →
  item a q = Ok (at_index a q) ∧ a !! Z.to_nat q = Some (at_index a q).
Proof.
  intros Hq. unfold item, at_index. rewrite norm_index_inside by done. simpl.
  destruct (lookup_lt_is_Some_2 a (Z.to_nat q)) as [v ->]; [lia|]. done.
Qed.

Lemma gather_inside a ix :
  Forall (λ q, 0 ≤ q < Z.of_nat (length a)) ix →
  gather a ix = Ok (at_index a <$> ix).
Proof.
  intros Hix. apply map_result_ok. eapply Forall_impl; [exact Hix|].
  intros q Hq. by apply item_inside.
Qed.

Lemma indices_inside ix (len : nat) :
  ix ≡ₚ seqZ 0 (Z.of_nat len) → Forall (λ q, 0 ≤ q < Z.of_nat len) ix.
Proof.
  intros Hp. rewrite Hp. apply Forall_seqZ. lia.
Qed.

Lemma at_index_seqZ a : at_index a <$> seqZ 0 (Z.of_nat (length a)) = a.
Proof.
  apply list_eq. intros k. rewrite list_lookup_fmap.
  destruct (decide (k < length a)%nat) as [Hk|Hk].
  - rewrite lookup_seqZ_lt by lia. simpl. rewrite Z.add_0_l.
    destruct (item_inside a (Z.of_nat k)) as [_ Hl]; [lia|].
    by rewrite Nat2Z.id in Hl.
  - rewrite lookup_seqZ_ge by lia. simpl. symmetry. apply lookup_ge_None. lia.
Qed.

(** indexing by a permutation of the indices permutes the array *)
Lemma gather_permutation a ix :
  ix ≡ₚ seqZ 0 (Z.of_nat (length a)) →
  gather a ix = Ok (at_index a <$> ix) ∧ at_index a <$> ix ≡ₚ a.
Proof.
  intros Hp. split.
  - by apply gather_inside, indices_inside.
  - rewrite Hp. by rewrite at_index_seqZ.
Qed.

Lemma gather_columns_inside n M ix :
  Forall (λ row, Z.of_nat (length row) = n) M →
  Forall (λ q, 0 ≤ q < n) ix →
  gather_columns M ix = Ok ((λ row, at_index row <$> ix) <$> M).
Proof.
  intros HM Hix. apply map_result_ok. eapply Forall_impl; [exact HM|].
  intros row Hrow. simpl. apply gather_inside. by rewrite Hrow.
Qed.

Lemma column_inside n M q :
  Forall (λ row, Z.of_nat (length row) = n) M → 0 ≤ q < n →
  column M q = Ok ((λ row, at_index row q) <$> M).
Proof.
  intros HM Hq. apply map_result_ok. eapply Forall_impl; [exact HM|].
  intros row Hrow. simpl. apply item_inside. by rewrite Hrow.
Qed.

Lemma slice_to_length {A} n (l : list A) :
  0 ≤ n ≤ Z.of_nat (length l) → Z.of_nat (length (slice_to n l)) = n.
Proof.
  intros Hn. unfold slice_to, slice_stop. rewrite decide_False by lia.
  rewrite length_take. lia.
Qed.

Lemma slice_to_take {A} n (l : list A) :
  0 ≤ n → slice_to n l = take (Z.to_nat n) l.
Proof. intros Hn. unfold slice_to, slice_stop. by rewrite decide_False by lia. Qed.

Lemma slice_to_all {A} n (l : list A) :
  Z.of_nat (length l) ≤ n → slice_to n l = l.
Proof.
  intros Hn. unfold slice_to, slice_stop. rewrite decide_False by lia.
  apply take_ge. lia.
Qed.

Lemma at_index_take a m q :
  0 ≤ q < Z.of_nat m → at_index (take m a) q = at_index a q.
Proof. intros Hq. unfold at_index. by rewrite lookup_take_lt by lia. Qed.

Lemma at_index_fmap a ix k q :
  ix !! Z.to_nat k = Some q → at_index (at_index a <$> ix) k = at_index a q.
Proof.
  intros Hk. unfold at_index at 1. by rewrite list_lookup_fmap, Hk.
Qed.
End indexing.

(** ** The solver wrapper *)

#[global] Instance Qcle_transitive : Transitive Qcle.
Proof. intros x y z. apply Qcle_trans. Qed.

Section solver.
Context (eigh : ndarray → result (list float64 * ndarray)).
Context (argsort : list float64 → list Z).
Context (N : Z) (potential : string) (H : ndarray).
Context (vals : list float64) (vecs : ndarray).
Context (Hbuild : build_2d_hamiltonian N potential = Ok H).
Context (Heigh : eigh H = Ok (vals, vecs)).
Context (Hsize : spectrum_of_size (N * N) (vals, vecs)).
Context (Hsorts : sorts vals (argsort vals)).

Local Abbreviation ix := (argsort vals).
Local Abbreviation svals := (at_index vals <$> argsort vals).
Local Abbreviation svecs := ((λ row, at_index row <$> argsort vals) <$> vecs).

Lemma ix_length : Z.of_nat (length ix) = N * N.
Proof.
  destruct Hsorts as [Hp _], Hsize as [Hlen _]. simpl in *.
  rewrite Hp, length_seqZ. lia.
Qed.

Lemma ix_inside : Forall (λ q, 0 ≤ q < N * N) ix.
Proof.
  destruct Hsorts as [Hp _], Hsize as [Hlen _]. simpl in *.
  rewrite <-Hlen. by apply indices_inside.
Qed.

Lemma svals_length : Z.of_nat (length svals) = N * N.
Proof. rewrite length_fmap. apply ix_length. Qed.

Lemma svecs_square : square (N * N) svecs.
Proof.
  destruct Hsize as [_ [Hrows Hcols]]. simpl in *. split.
  - by rewrite length_fmap.
  - apply Forall_fmap, Forall_true. intros row. simpl.
    rewrite length_fmap. apply ix_length.
Qed.

Lemma svals_permutation : svals ≡ₚ vals.
Proof. destruct Hsorts as [Hp _]. by apply gather_permutation. Qed.

Lemma svals_sorted : StronglySorted Qcle svals.
Proof.
  destruct Hsorts as [Hp Hs]. apply Sorted_StronglySorted; [apply _|].
  apply Hs. by apply gather_permutation.
Qed.

(** the result of the wrapper, before and after the slice *)
Lemma solve_eigen_result (n_eigs : option Z) :
  solve_eigen eigh argsort N potential n_eigs =
  Ok (match n_eigs with
      | None => (svals, svecs)
      | Some n => (slice_to n svals, slice_to n <$> svecs)
      end).
Proof.
  unfold solve_eigen. rewrite Hbuild. simpl. rewrite Heigh. simpl.
  destruct Hsorts as [Hp _], Hsize as [Hlen [_ Hcols]]. simpl in *.
  rewrite (proj1 (gather_permutation vals (argsort vals) Hp)). simpl.
  rewrite (gather_columns_inside (N * N) vecs (argsort vals) Hcols ix_inside).
  simpl. by destruct n_eigs.
Qed.

(** the returned pairs are the first [m] sorted pairs, for some [m] *)
Lemma solve_eigen_prefix (n_eigs : option Z) :
  ∃ m : nat, solve_eigen eigh argsort N potential n_eigs =
             Ok (take m svals, take m <$> svecs).
Proof.
  rewrite solve_eigen_result. destruct n_eigs as [n|].
  - exists (slice_stop (length svals) n). do 2 f_equal.
    apply list_fmap_ext. intros i row Hrow. unfold slice_to. f_equal. f_equal.
    destruct svecs_square as [_ Hcols].
    pose proof (Forall_lookup_1 _ _ _ _ Hcols Hrow) as Hl. simpl in Hl.
    pose proof svals_length. lia.
  - exists (length svals). rewrite take_ge by done. do 2 f_equal.
    rewrite <-(list_fmap_id svecs) at 1. apply list_fmap_ext.
    intros i row Hrow. simpl. symmetry. apply take_ge.
    destruct svecs_square as [_ Hcols].
    pose proof (Forall_lookup_1 _ _ _ _ Hcols Hrow) as Hl. simpl in Hl.
    pose proof svals_length. lia.
Qed.

(** a pair among the first [m] sorted pairs is a pair of [eigh], value
    and column, at the index that [argsort] lists at its position *)
Lemma eigenpair_prefix (m : nat) (k : Z) :
  0 ≤ k < Z.of_nat (length (take m svals)) →
  ∃ q v col, ix !! Z.to_nat k = Some q ∧
    eigenpair (take m svals, take m <$> svecs) k = Ok (v, col) ∧
    eigenpair (vals, vecs) q = Ok (v, col).
Proof.
  intros Hk. rewrite length_take in Hk. pose proof svals_length as Hsl.
  pose proof ix_length as Hil.
  destruct (lookup_lt_is_Some_2 ix (Z.to_nat k)) as [q Hq]; [lia|].
  pose proof (Forall_lookup_1 _ _ _ _ ix_inside Hq) as Hqr. simpl in Hqr.
  destruct Hsize as [Hlen [_ Hcols]]. simpl in *.
  exists q, (at_index vals q), ((λ row, at_index row q) <$> vecs).
  split; [done|]. unfold eigenpair. simpl. split.
  - destruct (item_inside (take m svals) k) as [-> _]; [rewrite length_take; lia|].
    simpl.
    rewrite (column_inside (Z.of_nat (m `min` Z.to_nat (N * N))) (take m <$> svecs) k);
      [| |lia].
    + simpl. f_equal. f_equal.
      * rewrite at_index_take by lia. by apply at_index_fmap.
      * rewrite <-!list_fmap_compose. apply list_fmap_ext.
        intros i row _. simpl. rewrite at_index_take by lia.
        by apply at_index_fmap.
    + apply Forall_fmap. destruct svecs_square as [_ Hc].
      eapply Forall_impl; [exact Hc|]. intros row Hrow. simpl in *.
      rewrite length_take. lia.
  - destruct (item_inside vals q) as [-> _]; [lia|]. simpl.
    by rewrite (column_inside (N * N) vecs q Hcols Hqr).
Qed.
End solver.

(** the indirect merge sort meets the contract of [argsort] *)
#[global] Instance by_value_total : Total by_value.
Proof. intros p q. unfold by_value. apply Qc_le_total. Qed.

Lemma merge_argsort_sorts (a : list float64) : sorts a (merge_argsort a).
Proof.
  unfold merge_argsort.
  set (s := seqZ 0 (Z.of_nat (length a))).
  assert (Hlen : length s = length a).
  { subst s. rewrite length_seqZ. lia. }
  assert (Hperm : (merge_sort by_value (zip s a)).*1 ≡ₚ s).
  { rewrite merge_sort_Permutation. rewrite fst_zip by lia. done. }
  split; [done|]. intros b Hb.
  rewrite (proj1 (gather_permutation a _ Hperm)) in Hb. injection Hb as <-.
  rewrite <-list_fmap_compose.
  rewrite (list_fmap_ext _ snd (merge_sort by_value (zip s a))).
  - apply (Sorted_fmap _ by_value); [done|]. apply Sorted_merge_sort, _.
  - intros i [q v] Hi. simpl.
    assert (Hin : (q, v) ∈ zip s a).
    { rewrite <-merge_sort_Permutation. by eapply list_elem_of_lookup_2. }
    apply list_elem_of_lookup in Hin as [j Hj].
    apply lookup_zip_Some in Hj as [Hq Hv]. subst s.
    apply lookup_seqZ in Hq as [-> _]. unfold at_index.
    rewrite Z.add_0_l, Nat2Z.id. by rewrite Hv.
Qed.

Lemma slice_stop_count (len : nat) (n : Z) :
  Z.of_nat (slice_stop len n `min` len) = slice_count (Z.of_nat len) n.
Proof. unfold slice_stop, slice_count. case_decide; lia. Qed.

(** the wrapper returns the first [returned_count] sorted pairs: so many
    eigenvalues, and so many entries in each of the [N * N] rows of the
    eigenvector array *)
Lemma solve_eigen_returns
    (eigh : ndarray → result (list float64 * ndarray))
    (argsort : list float64 → list Z) (N : Z) (potential : string)
    (H : ndarray) (vals : list float64) (vecs : ndarray) (n_eigs : option Z) :
  build_2d_hamiltonian N potential = Ok H →
  eigh H = Ok (vals, vecs) →
  spectrum_of_size (N * N) (vals, vecs) →
  sorts vals (argsort vals) →
  ∃ m : nat,
    solve_eigen eigh argsort N potential n_eigs =
      Ok (take m (at_index vals <$> argsort vals),
          take m <$> ((λ row, at_index row <$> argsort vals) <$> vecs)) ∧
    Z.of_nat (length (take m (at_index vals <$> argsort vals))) =
      returned_count N n_eigs ∧
    Z.of_nat (length
      (take m <$> ((λ row, at_index row <$> argsort vals) <$> vecs))) = N * N ∧
    Forall (λ row, Z.of_nat (length row) = returned_count N n_eigs)
      (take m <$> ((λ row, at_index row <$> argsort vals) <$> vecs)).
Proof.
  intros Hbuild Heigh Hsize Hsorts.
  pose proof (solve_eigen_result eigh argsort N potential H vals vecs
    Hbuild Heigh Hsize Hsorts n_eigs) as Hres.
  pose proof (svals_length argsort N vals vecs Hsize Hsorts) as Hlen.
  pose proof (svecs_square argsort N vals vecs Hsize Hsorts) as [Hrows Hcols].
  exists (match n_eigs with
          | None => Z.to_nat (N * N)
          | Some n => slice_stop (Z.to_nat (N * N)) n
          end).
  assert (Hcount : Z.of_nat (match n_eigs with
                             | None => Z.to_nat (N * N)
                             | Some n => slice_stop (Z.to_nat (N * N)) n
                             end `min` Z.to_nat (N * N)) =
                   returned_count N n_eigs).
  { destruct n_eigs as [n|]; simpl.
    - rewrite slice_stop_count. f_equal. lia.
    - lia. }
  split; [|split; [|split]].
  - rewrite Hres. destruct n_eigs as [n|].
    + unfold slice_to.
      replace (length (at_index vals <$> argsort vals))
        with (Z.to_nat (N * N)) by lia.
      do 2 f_equal. apply list_fmap_ext. intros i row Hrow. simpl.
      pose proof (Forall_lookup_1 _ _ _ _ Hcols Hrow) as Hl. simpl in Hl.
      by replace (length row) with (Z.to_nat (N * N)) by lia.
    + rewrite take_ge by lia. do 2 f_equal.
      rewrite <-list_fmap_id at 1. apply list_fmap_ext.
      intros i row Hrow. simpl. symmetry. apply take_ge.
      pose proof (Forall_lookup_1 _ _ _ _ Hcols Hrow) as Hl. simpl in Hl. lia.
  - rewrite length_take.
    replace (length (at_index vals <$> argsort vals))
      with (Z.to_nat (N * N)) by lia.
    exact Hcount.
  - by rewrite length_fmap.
  - apply Forall_fmap. eapply Forall_impl; [exact Hcols|].
    intros row Hrow. simpl in *. rewrite length_take.
    replace (length row) with (Z.to_nat (N * N)) by lia. exact Hcount.
Qed.

(** each pair of the full sorted result is the pair of [eigh] at the
    index that [argsort] lists at its position *)
Lemma eigenpair_sorted
    (argsort : list float64 → list Z) (N : Z)
    (vals : list float64) (vecs : ndarray) (k : Z) :
  spectrum_of_size (N * N) (vals, vecs) →
  sorts vals (argsort vals) →
  0 ≤ k < N * N →
  ∃ q v col, argsort vals !! Z.to_nat k = Some q ∧
    eigenpair (at_index vals <$> argsort vals,
               (λ row, at_index row <$> argsort vals) <$> vecs) k = Ok (v, col) ∧
    eigenpair (vals, vecs) q = Ok (v, col).
Proof.
  intros Hsize Hsorts Hk.
  pose proof (svals_length argsort N vals vecs Hsize Hsorts) as Hlen.
  pose proof (svecs_square argsort N vals vecs Hsize Hsorts) as [Hrows Hcols].
  destruct (eigenpair_prefix argsort N vals vecs Hsize Hsorts
    (Z.to_nat (N * N)) k) as (q & v & col & Hq & Hp & Hv).
  { rewrite length_take. lia. }
  exists q, v, col. split; [done|]. split; [|done].
  rewrite take_ge in Hp by lia.
  rewrite (list_fmap_ext (take (Z.to_nat (N * N))) id) in Hp.
  - by rewrite list_fmap_id in Hp.
  - intros i row Hrow. simpl. apply take_ge.
    pose proof (Forall_lookup_1 _ _ _ _ Hcols Hrow) as Hl. simpl in Hl. lia.
Qed.

(** C4: for [N >= 1], whatever the order in which [eigh] returns the
    spectrum, [solve_eigen] returns [returned_count] eigenvalues, all
    [N^2] without [n_eigs], sorted ascending, with an eigenvector array of
    [N^2] rows and as many columns; the pair at each returned position is
    the pair of [eigh], eigenvalue and eigenvector column, at the index
    the sorting permutation lists there; and every returned eigenvalue is
    at most every eigenvalue that is not returned. *)
Theorem solve_eigen_sorted
    (eigh : ndarray → result (list float64 * ndarray))
    (argsort : list float64 → list Z) (N : Z) (potential : string)
    (n_eigs : option Z) (vals : list float64) (vecs : ndarray) :
  1 ≤ N →
  (∀ H, build_2d_hamiltonian N potential = Ok H → eigh H = Ok (vals, vecs)) →
  spectrum_of_size (N * N) (vals, vecs) →
  sorts vals (argsort vals) →
  ∃ rvals rvecs rest,
    solve_eigen eigh argsort N potential n_eigs = Ok (rvals, rvecs) ∧
    Z.of_nat (length rvals) = returned_count N n_eigs ∧
    Z.of_nat (length rvecs) = N * N ∧
    Forall (λ row, Z.of_nat (length row) = returned_count N n_eigs) rvecs ∧
    Sorted Qcle rvals ∧
    argsort vals ≡ₚ seqZ 0 (N * N) ∧
    (∀ k, 0 ≤ k < Z.of_nat (length rvals) →
       ∃ q pair, argsort vals !! Z.to_nat k = Some q ∧
                 eigenpair (rvals, rvecs) k = Ok pair ∧
                 eigenpair (vals, vecs) q = Ok pair) ∧
    rvals ++ rest ≡ₚ vals ∧
    ∀ x y, x ∈ rvals → y ∈ rest → (x ≤ y)%Qc.
Proof.
  intros HN Heigh Hsize Hsorts.
  destruct (build_2d_hamiltonian_stencil N HN potential) as (H & Hbuild & _).
  specialize (Heigh H Hbuild).
  destruct (solve_eigen_returns eigh argsort N potential H vals vecs n_eigs
    Hbuild Heigh Hsize Hsorts) as (m & Hm & Hcount & Hrows & Hcols).
  pose proof (svals_sorted argsort vals Hsorts) as Hss.
  rewrite <-(take_drop m (at_index vals <$> argsort vals)) in Hss.
  exists (take m (at_index vals <$> argsort vals)),
    (take m <$> ((λ row, at_index row <$> argsort vals) <$> vecs)),
    (drop m (at_index vals <$> argsort vals)).
  split; [done|]. split; [done|]. split; [done|]. split; [done|].
  split; [|split; [|split; [|split]]].
  - apply StronglySorted_Sorted. by apply StronglySorted_app_1_l in Hss.
  - destruct Hsorts as [Hp _], Hsize as [Hlen _]. simpl in *. by rewrite <-Hlen.
  - intros k Hk.
    destruct (eigenpair_prefix argsort N vals vecs Hsize Hsorts m k Hk)
      as (q & v & col & Hq & Hr & Hv).
    by exists q, (v, col).
  - rewrite take_drop. by apply svals_permutation.
  - intros x y Hx Hy. by eapply StronglySorted_app_1_elem_of.
Qed.

(** C5: for [N >= 1], without [n_eigs] the wrapper returns the full
    sorted spectrum: [N^2] eigenvalues, ascending, and an [N^2] x [N^2]
    array, the pair at each position being the pair of [eigh] at the index
    the sorting permutation lists there; with [0 <= n_eigs <= N^2] it
    returns exactly [n_eigs] pairs, the first [n_eigs] of these. *)
Theorem solve_eigen_count
    (eigh : ndarray → result (list float64 * ndarray))
    (argsort : list float64 → list Z) (N : Z) (potential : string)
    (vals : list float64) (vecs : ndarray) :
  1 ≤ N →
  (∀ H, build_2d_hamiltonian N potential = Ok H → eigh H = Ok (vals, vecs)) →
  spectrum_of_size (N * N) (vals, vecs) →
  sorts vals (argsort vals) →
  ∃ svals svecs,
    solve_eigen eigh argsort N potential None = Ok (svals, svecs) ∧
    Z.of_nat (length svals) = N * N ∧ square (N * N) svecs ∧
    Sorted Qcle svals ∧ svals ≡ₚ vals ∧
    argsort vals ≡ₚ seqZ 0 (N * N) ∧
    (∀ k, 0 ≤ k < N * N →
       ∃ q pair, argsort vals !! Z.to_nat k = Some q ∧
                 eigenpair (svals, svecs) k = Ok pair ∧
                 eigenpair (vals, vecs) q = Ok pair) ∧
    ∀ n, 0 ≤ n ≤ N * N →
      let rvals := take (Z.to_nat n) svals in
      let rvecs := take (Z.to_nat n) <$> svecs in
      solve_eigen eigh argsort N potential (Some n) = Ok (rvals, rvecs) ∧
      Z.of_nat (length rvals) = n ∧
      Z.of_nat (length rvecs) = N * N ∧
      Forall (λ row, Z.of_nat (length row) = n) rvecs ∧
      ∀ k, 0 ≤ k < n →
        eigenpair (rvals, rvecs) k = eigenpair (svals, svecs) k.
Proof.
  intros HN Heigh Hsize Hsorts.
  destruct (build_2d_hamiltonian_stencil N HN potential) as (H & Hbuild & _).
  specialize (Heigh H Hbuild).
  pose proof (solve_eigen_result eigh argsort N potential H vals vecs
    Hbuild Heigh Hsize Hsorts) as Hres.
  pose proof (svals_length argsort N vals vecs Hsize Hsorts) as Hlen.
  pose proof (svecs_square argsort N vals vecs Hsize Hsorts) as [Hrows Hcols].
  eexists _, _. split; [exact (Hres None)|].
  split; [done|]. split; [done|]. split; [|split; [|split; [|split]]].
  - apply StronglySorted_Sorted. by apply svals_sorted.
  - by apply svals_permutation.
  - destruct Hsorts as [Hp _], Hsize as [Hl _]. simpl in *. by rewrite <-Hl.
  - intros k Hk.
    destruct (eigenpair_sorted argsort N vals vecs k Hsize Hsorts Hk)
      as (q & v & col & Hq & Hp & Hv).
    by exists q, (v, col).
  - intros n Hn rvals rvecs. split; [|split; [|split; [|split]]].
    + rewrite (Hres (Some n)). subst rvals rvecs.
      rewrite slice_to_take by lia. do 2 f_equal.
      apply list_fmap_ext. intros i row _. apply slice_to_take. lia.
    + subst rvals. rewrite length_take. lia.
    + subst rvecs. by rewrite length_fmap.
    + subst rvecs. apply Forall_fmap. eapply Forall_impl; [exact Hcols|].
      intros row Hrow. simpl in *. rewrite length_take. lia.
    + intros k Hk. subst rvals rvecs.
      destruct (eigenpair_prefix argsort N vals vecs Hsize Hsorts
        (Z.to_nat n) k) as (q & v & col & Hq & Hp & Hv).
      { rewrite length_take. lia. }
      destruct (eigenpair_sorted argsort N vals vecs k Hsize Hsorts)
        as (q' & v' & col' & Hq' & Hp' & Hv'); [lia|].
      rewrite Hp, Hp'. congruence.
Qed.

(** C9: for [N >= 1] and [n_eigs > N^2] the wrapper does not raise: the
    slice returns all there is, the full [N^2] sorted pairs, each the pair
    of [eigh] at the index the sorting permutation lists at its
    position. *)
Theorem solve_eigen_oversized
    (eigh : ndarray → result (list float64 * ndarray))
    (argsort : list float64 → list Z) (N : Z) (potential : string)
    (n : Z) (vals : list float64) (vecs : ndarray) :
  1 ≤ N →
  (∀ H, build_2d_hamiltonian N potential = Ok H → eigh H = Ok (vals, vecs)) →
  spectrum_of_size (N * N) (vals, vecs) →
  sorts vals (argsort vals) →
  N * N < n →
  ∃ svals svecs,
    solve_eigen eigh argsort N potential (Some n) = Ok (svals, svecs) ∧
    solve_eigen eigh argsort N potential None = Ok (svals, svecs) ∧
    Z.of_nat (length svals) = N * N ∧ square (N * N) svecs ∧
    Sorted Qcle svals ∧ svals ≡ₚ vals ∧
    argsort vals ≡ₚ seqZ 0 (N * N) ∧
    ∀ k, 0 ≤ k < N * N →
      ∃ q pair, argsort vals !! Z.to_nat k = Some q ∧
                eigenpair (svals, svecs) k = Ok pair ∧
                eigenpair (vals, vecs) q = Ok pair.
Proof.
  intros HN Heigh Hsize Hsorts Hn.
  destruct (build_2d_hamiltonian_stencil N HN potential) as (H & Hbuild & _).
  specialize (Heigh H Hbuild).
  pose proof (solve_eigen_result eigh argsort N potential H vals vecs
    Hbuild Heigh Hsize Hsorts) as Hres.
  pose proof (svals_length argsort N vals vecs Hsize Hsorts) as Hlen.
  pose proof (svecs_square argsort N vals vecs Hsize Hsorts) as [Hrows Hcols].
  eexists _, _. split; [|split; [exact (Hres None)|]].
  - rewrite (Hres (Some n)). rewrite slice_to_all by lia. do 2 f_equal.
    rewrite <-list_fmap_id. apply list_fmap_ext. intros i row Hrow. simpl.
    apply slice_to_all.
    pose proof (Forall_lookup_1 _ _ _ _ Hcols Hrow) as Hl. simpl in Hl. lia.
  - split; [done|]. split; [done|]. split; [|split; [|split]].
    + apply StronglySorted_Sorted. by apply svals_sorted.
    + by apply svals_permutation.
    + destruct Hsorts as [Hp _], Hsize as [Hl _]. simpl in *. by rewrite <-Hl.
    + intros k Hk.
      destruct (eigenpair_sorted argsort N vals vecs k Hsize Hsorts Hk)
        as (q & v & col & Hq & Hp & Hv).
      by exists q, (v, col).
Qed.

(** * Instances on concrete grids *)

(** equality of concrete results, decided by evaluation *)
Ltac by_evaluation :=
  match goal with
  | |- ?x = ?y => apply (bool_decide_eq_true_1 (x = y)); vm_compute; reflexivity
  | |- ?x ≠ ?y => apply (bool_decide_eq_false_1 (x = y)); vm_compute; reflexivity
  end.

(** the 4 x 4 matrix of the 2 x 2 grid *)
Example build_2_well :
  build_2d_hamiltonian 2 "well" =
  Ok [[lit (-16); lit 4; lit 4; lit 0];
      [lit 4; lit (-16); lit 0; lit 4];
      [lit 4; lit 0; lit (-16); lit 4];
      [lit 0; lit 4; lit 4; lit (-16)]].
Proof. by_evaluation. Qed.

Example build_2_harmonic :
  build_2d_hamiltonian 2 "harmonic" =
  Ok [[lit (-14); lit 4; lit 4; lit 0];
      [lit 4; lit (-15); lit 0; lit 4];
      [lit 4; lit 0; lit (-15); lit 4];
      [lit 0; lit 4; lit 4; lit (-16)]].
Proof. by_evaluation. Qed.

(** a single grid point: no neighbour terms *)
Example build_1_well : build_2d_hamiltonian 1 "well" = Ok [[lit (-4)]].
Proof. by_evaluation. Qed.

Example solve_unsorted_first_three :
  solve_eigen unsorted_eigh merge_argsort 2 "well" (Some 3) =
  Ok ([lit 0; lit 1; lit 2],
      [[lit 0; lit 0; lit 0];
       [lit 0; lit 1; lit 0];
       [lit 0; lit 0; lit 1];
       [lit 1; lit 0; lit 0]]).
Proof. by_evaluation. Qed.

Lemma unsorted_eigh_size : spectrum_of_size (2 * 2) ([lit 3; lit 1; lit 2; lit 0],
      [[lit 1; lit 0; lit 0; lit 0];
       [lit 0; lit 1; lit 0; lit 0];
       [lit 0; lit 0; lit 1; lit 0];
       [lit 0; lit 0; lit 0; lit 1]]).
Proof. repeat split; simpl; repeat constructor. Defined.



Lemma off_diagonal_entries_witness :
  ∃ H, build_2d_hamiltonian 2 "well" = Ok H ∧
       getitem H 0 1 = Ok (lit 4) ∧ getitem H 0 3 = Ok (lit 0) ∧
       (length (coupling_terms 4 H 0) < 4)%nat.
Proof.
  destruct (off_diagonal_entries 2 "well") as (H & HH & Hr); [lia|].
  exists H. split; [exact HH|].
  destruct (Hr 0) as (He & _ & Hb); [lia|].
  destruct (He 1) as [H1 _]; [lia|lia|].
  destruct (He 3) as [H3 _]; [lia|lia|].
  rewrite H1, H3. split; [by_evaluation|]. split; [by_evaluation|].
  apply Hb. left. reflexivity.
Defined.

Lemma hamiltonian_symmetric_witness :
  ∃ H, build_2d_hamiltonian 2 "harmonic" = Ok H ∧
       getitem H 0 1 = getitem H 1 0.
Proof.
  destruct (hamiltonian_symmetric 2 "harmonic") as (H & HH & _ & Hs); [lia|].
  exists H. split; [exact HH|]. apply Hs; lia.
Defined.

Lemma solve_eigen_sorted_witness :
  ∃ rvals rvecs,
    solve_eigen unsorted_eigh merge_argsort 2 "well" (Some 2) = Ok (rvals, rvecs) ∧
    Sorted Qcle rvals.
Proof.
  destruct (solve_eigen_sorted unsorted_eigh merge_argsort 2 "well" (Some 2)
    [lit 3; lit 1; lit 2; lit 0]
    [[lit 1; lit 0; lit 0; lit 0];
     [lit 0; lit 1; lit 0; lit 0];
     [lit 0; lit 0; lit 1; lit 0];
     [lit 0; lit 0; lit 0; lit 1]])
    as (rvals & rvecs & rest & Hs & _ & _ & _ & Hsorted & _).
  - lia.
  - intros H _. reflexivity.
  - exact unsorted_eigh_size.
  - apply merge_argsort_sorts.
  - exists rvals, rvecs. split; [exact Hs|exact Hsorted].
Defined.

Lemma solve_eigen_count_witness :
  ∃ svals svecs,
    solve_eigen unsorted_eigh merge_argsort 2 "well" None = Ok (svals, svecs) ∧
    Z.of_nat (length svals) = 4 ∧
    solve_eigen unsorted_eigh merge_argsort 2 "well" (Some 3) =
      Ok (take 3 svals, take 3 <$> svecs).
Proof.
  destruct (solve_eigen_count unsorted_eigh merge_argsort 2 "well"
    [lit 3; lit 1; lit 2; lit 0]
    [[lit 1; lit 0; lit 0; lit 0];
     [lit 0; lit 1; lit 0; lit 0];
     [lit 0; lit 0; lit 1; lit 0];
     [lit 0; lit 0; lit 0; lit 1]])
    as (svals & svecs & Hs & Hlen & _ & _ & _ & _ & _ & Hn).
  - lia.
  - intros H _. reflexivity.
  - exact unsorted_eigh_size.
  - apply merge_argsort_sorts.
  - exists svals, svecs. split; [exact Hs|]. split; [exact Hlen|].
    destruct (Hn 3) as [H3 _]; [lia|]. exact H3.
Defined.

Lemma solve_eigen_oversized_witness :
  ∃ svals svecs,
    solve_eigen unsorted_eigh merge_argsort 2 "well" (Some 7) = Ok (svals, svecs) ∧
    Z.of_nat (length svals) = 4.
Proof.
  destruct (solve_eigen_oversized unsorted_eigh merge_argsort 2 "well" 7
    [lit 3; lit 1; lit 2; lit 0]
    [[lit 1; lit 0; lit 0; lit 0];
     [lit 0; lit 1; lit 0; lit 0];
     [lit 0; lit 0; lit 1; lit 0];
     [lit 0; lit 0; lit 0; lit 1]])
    as (svals & svecs & Hs & _ & Hlen & _).
  - lia.
  - intros H _. reflexivity.
  - exact unsorted_eigh_size.
  - apply merge_argsort_sorts.
  - lia.
  - exists svals, svecs. split; [exact Hs|exact Hlen].
Defined.

Lemma unknown_kind_as_well_witness :
  ∃ H, build_2d_hamiltonian 2 "foo" = Ok H ∧ build_2d_hamiltonian 2 "well" = Ok H.
Proof. apply (unknown_kind_as_well 2 "foo"); [lia|discriminate|discriminate]. Defined.

Lemma row_sums_well_witness :
  ∃ H, build_2d_hamiltonian 3 "well" = Ok H ∧
       row_sum H 4 = Ok 0%Qc ∧ row_sum H 0 = Ok (lit (-18)).
Proof.
  destruct (row_sums_well 3) as (H & HH & Hr); [lia|].
  exists H. split; [exact HH|].
  destruct (Hr 4) as [_ H4]; [lia|]. destruct (Hr 0) as [H0 _]; [lia|].
  rewrite H0. split.
  - apply H4. unfold on_border, grid_point. simpl.
    change (4 / 3) with 1. change (4 `mod` 3) with 1. lia.
  - f_equal. by_evaluation.
Defined.

(** C8, the claim as stated fails: on the 1 x 1 grid the only row sums to
    [-4], not to [V(0, 0) = 0]. *)
Lemma row_sums_well_counterexample :
  build_2d_hamiltonian 1 "well" = Ok [[lit (-4)]] ∧
  row_sum [[lit (-4)]] 0 = Ok (lit (-4)) ∧
  row_sum [[lit (-4)]] 0 ≠ Ok (V 1 (lit 1 / float_of_int 1) "well" 0 0).
Proof. repeat split; by_evaluation. Qed.

Lemma nonpositive_size_witness :
  ∃ H, build_2d_hamiltonian (-2) "well" = Ok H ∧ agrees 4 H (λ _ _, 0%Qc).
Proof. exact (nonpositive_size (-2) "well" ltac:(lia)). Defined.

(** C10, the claim as stated fails at [N = 0]: the builder raises, it
    does not return a 0 x 0 matrix. *)
Lemma nonpositive_size_counterexample :
  build_2d_hamiltonian 0 "well" = Raise ZeroDivisionError ∧
  ¬ ∃ H, build_2d_hamiltonian 0 "well" = Ok H.
Proof.
  assert (Hr : build_2d_hamiltonian 0 "well" = Raise ZeroDivisionError)
    by by_evaluation.
  split; [done|]. intros [H HH]. congruence.
Qed.

(** C6: the builder does not reject a negative [N]; for [N = -1] it
    returns the 1 x 1 matrix of zeros. *)
Lemma negative_size_not_rejected :
  build_2d_hamiltonian (-1) "well" = Ok [[0%Qc]] ∧
  ¬ raises (build_2d_hamiltonian (-1) "well").
Proof.
  assert (Hr : build_2d_hamiltonian (-1) "well" = Ok [[0%Qc]]) by by_evaluation.
  split; [done|]. rewrite Hr. simpl. tauto.
Qed.

(** * Further properties of the builder *)

(** the builder returns for every [N] but [0] *)
Lemma build_2d_hamiltonian_returns (N : Z) (potential : string) :
  N ≠ 0 →
  ∃ H, build_2d_hamiltonian N potential = Ok H ∧ square (N * N) H.
Proof.
  intros HN. destruct (decide (1 ≤ N)) as [Hpos|Hneg].
  - destruct (build_2d_hamiltonian_stencil N Hpos potential) as (H & HH & [Hsq _]).
    by exists H.
  - unfold build_2d_hamiltonian, truediv, range.
    rewrite decide_False; last first.
    { unfold float_of_int. rewrite <-Z2Qc_inj_0. by intros ?%Z2Qc_inj. }
    simpl. destruct (np_zeros_agrees (N * N)) as (H & -> & [Hsq _]); [nia|].
    simpl. rewrite seqZ_nil by lia. simpl. by exists H.
Qed.

(** X1: [idx] maps the grid one to one onto the linear indices
    [0 .. N*N - 1]. *)
Theorem idx_bijection (N : Z) :
  1 ≤ N →
  (∀ i j, 0 ≤ i < N → 0 ≤ j < N → 0 ≤ idx N i j < N * N) ∧
  (∀ i j i' j', 0 ≤ i < N → 0 ≤ j < N → 0 ≤ i' < N → 0 ≤ j' < N →
     idx N i j = idx N i' j' → i = i' ∧ j = j') ∧
  (∀ r, 0 ≤ r < N * N → ∃ i j, 0 ≤ i < N ∧ 0 ≤ j < N ∧ idx N i j = r).
Proof.
  intros HN. split; [|split].
  - intros i j. by apply idx_range.
  - intros i j i' j' _ Hj _ Hj'. by apply idx_inj.
  - intros r Hr. exists (r / N), (r `mod` N). by apply grid_point_range.
Qed.

Lemma idx_bijection_witness : idx 3 2 1 = 7 ∧ ∃ i j, idx 3 i j = 5.
Proof.
  destruct (idx_bijection 3) as (_ & _ & Hsurj); [lia|].
  split; [reflexivity|].
  destruct (Hsurj 5) as (i & j & _ & _ & Hij); [lia|]. by exists i, j.
Defined.

(** ** The potential on the diagonal *)

Lemma stencil_diagonal (N : Z) (potential : string) (i j : Z) :
  1 ≤ N → 0 ≤ i < N → 0 ≤ j < N →
  stencil N potential (idx N i j) (idx N i j) =
  (lit (-4) * float_of_int (N * N)
   + V N (lit 1 / float_of_int N) potential i j)%Qc.
Proof.
  intros HN Hi Hj. unfold stencil. rewrite decide_True by done.
  by rewrite idx_div, idx_mod.
Qed.







Lemma V_swap (N : Z) (dx : float64) (potential : string) (i j : Z) :
  V N dx potential i j = V N dx potential j i.
Proof. unfold V. repeat case_decide; [done| |done]. cbv zeta. ring. Qed.

(** X5: for [N >= 1] and any kind the matrix does not change when the
    two grid axes are exchanged: the entry between [(i, j)] and
    [(i', j')] is the entry between [(j, i)] and [(j', i')]. *)
Theorem grid_axes_exchange (N : Z) (potential : string) :
  1 ≤ N →
  ∃ H, build_2d_hamiltonian N potential = Ok H ∧
    ∀ i j i' j', 0 ≤ i < N → 0 ≤ j < N → 0 ≤ i' < N → 0 ≤ j' < N →
      getitem H (idx N i j) (idx N i' j') = getitem H (idx N j i) (idx N j' i').
Proof.
  intros HN.
  destruct (build_2d_hamiltonian_stencil N HN potential) as (H & HH & [_ Hg]).
  exists H. split; [done|]. intros i j i' j' Hi Hj Hi' Hj'.
  rewrite !Hg by (apply idx_range; lia). f_equal.
  destruct (decide (i' = i ∧ j' = j)) as [[-> ->]|Hne].
  - rewrite !stencil_diagonal by done. by rewrite V_swap.
  - assert (idx N i' j' ≠ idx N i j) by (intros ?%idx_inj; lia).
    assert (idx N j' i' ≠ idx N j i) by (intros ?%idx_inj; lia).
    rewrite !stencil_off_diagonal by done.
    pose proof (neighbour_indices_step N i j i' j' Hi Hj Hi' Hj') as Hs.
    pose proof (neighbour_indices_step N j i j' i' Hj Hi Hj' Hi') as Hs'.
    destruct (decide (idx N i' j' ∈ neighbour_indices N (idx N i j))) as [Hin|Hin].
    + rewrite decide_True; [done|]. apply Hs'. apply Hs in Hin. lia.
    + rewrite decide_False; [done|]. intros Hin'. apply Hin, Hs.
      apply Hs' in Hin'. lia.
Qed.

Lemma grid_axes_exchange_witness :
  ∃ H, build_2d_hamiltonian 3 "harmonic" = Ok H ∧ getitem H 1 4 = getitem H 3 4.
Proof.
  destruct (grid_axes_exchange 3 "harmonic") as (H & HH & Hx); [lia|].
  exists H. split; [exact HH|]. apply (Hx 0 1 1 1); lia.
Defined.

(** * Further properties of the solver wrapper *)

(** X6: for every [N] but [0] and every integer [n_eigs] the wrapper
    returns a prefix of the sorted spectrum and does not raise: the first
    [min(n_eigs, N^2)] pairs for [n_eigs >= 0], and all but the last
    [-n_eigs] pairs (none when [-n_eigs >= N^2]) for [n_eigs < 0]. *)
Theorem solve_eigen_slice
    (eigh : ndarray → result (list float64 * ndarray))
    (argsort : list float64 → list Z) (N : Z) (potential : string)
    (n : Z) (vals : list float64) (vecs : ndarray) :
  N ≠ 0 →
  (∀ H, build_2d_hamiltonian N potential = Ok H → eigh H = Ok (vals, vecs)) →
  spectrum_of_size (N * N) (vals, vecs) →
  sorts vals (argsort vals) →
  ∃ svals svecs (m : nat),
    solve_eigen eigh argsort N potential None = Ok (svals, svecs) ∧
    solve_eigen eigh argsort N potential (Some n) =
      Ok (take m svals, take m <$> svecs) ∧
    Z.of_nat (length (take m svals)) = slice_count (N * N) n ∧
    Forall (λ row, Z.of_nat (length row) = slice_count (N * N) n)
      (take m <$> svecs).
Proof.
  intros HN Heigh Hsize Hsorts.
  destruct (build_2d_hamiltonian_returns N potential HN) as (H & Hbuild & _).
  specialize (Heigh H Hbuild).
  pose proof (solve_eigen_result eigh argsort N potential H vals vecs
    Hbuild Heigh Hsize Hsorts) as Hres.
  pose proof (svals_length argsort N vals vecs Hsize Hsorts) as Hlen.
  pose proof (svecs_square argsort N vals vecs Hsize Hsorts) as [Hrows Hcols].
  eexists _, _, (slice_stop (Z.to_nat (N * N)) n).
  split; [exact (Hres None)|]. split; [|split].
  - rewrite (Hres (Some n)). unfold slice_to.
    replace (length (at_index vals <$> argsort vals)) with (Z.to_nat (N * N)) by lia.
    do 2 f_equal. apply list_fmap_ext. intros i row Hrow. simpl.
    pose proof (Forall_lookup_1 _ _ _ _ Hcols Hrow) as Hl. simpl in Hl.
    by replace (length row) with (Z.to_nat (N * N)) by lia.
  - rewrite length_take.
    replace (length (at_index vals <$> argsort vals)) with (Z.to_nat (N * N)) by lia.
    rewrite slice_stop_count. f_equal. lia.
  - apply Forall_fmap. eapply Forall_impl; [exact Hcols|].
    intros row Hrow. simpl in *. rewrite length_take.
    replace (length row) with (Z.to_nat (N * N)) by lia.
    rewrite slice_stop_count. f_equal. lia.
Qed.

Lemma solve_eigen_slice_witness :
  ∃ svals svecs (m : nat),
    solve_eigen unsorted_eigh merge_argsort 2 "well" None = Ok (svals, svecs) ∧
    solve_eigen unsorted_eigh merge_argsort 2 "well" (Some (-1)) =
      Ok (take m svals, take m <$> svecs) ∧
    Z.of_nat (length (take m svals)) = 3.
Proof.
  destruct (solve_eigen_slice unsorted_eigh merge_argsort 2 "well" (-1)
    [lit 3; lit 1; lit 2; lit 0]
    [[lit 1; lit 0; lit 0; lit 0];
     [lit 0; lit 1; lit 0; lit 0];
     [lit 0; lit 0; lit 1; lit 0];
     [lit 0; lit 0; lit 0; lit 1]])
    as (svals & svecs & m & Hs & Hn & Hlen & _).
  - lia.
  - intros H _. reflexivity.
  - exact unsorted_eigh_size.
  - apply merge_argsort_sorts.
  - exists svals, svecs, m. split; [exact Hs|]. split; [exact Hn|exact Hlen].
Defined.

#[global] Instance Qcle_antisymm : AntiSymm (=) Qcle.
Proof. intros x y. apply Qcle_antisym. Qed.

Lemma strictly_sorted_NoDup (l : list float64) : Sorted Qclt l → NoDup l.
Proof.
  intros Hs. apply Sorted_StronglySorted in Hs;
    [|intros x y z; apply Qclt_trans].
  induction Hs as [|x l _ IH Hx]; [apply NoDup_nil_2|].
  apply NoDup_cons. split; [|done].
  intros Hin. rewrite Forall_forall in Hx.
  by apply (Qclt_not_eq x x); [apply Hx|].
Qed.

Lemma strictly_sorted_sorted (l : list float64) : Sorted Qclt l → Sorted Qcle l.
Proof.
  intros Hs. rewrite <-(list_fmap_id l).
  apply (Sorted_fmap id Qclt Qcle); [|done]. intros x y. apply Qclt_le_weak.
Qed.

(** sorting an ascending array leaves its values where they are *)
Lemma sorted_gather_fixed (argsort : list float64 → list Z) (vals : list float64) :
  sorts vals (argsort vals) → Sorted Qcle vals →
  at_index vals <$> argsort vals = vals.
Proof.
  intros Hsorts Hs. apply (Sorted_unique Qcle).
  - apply StronglySorted_Sorted. by apply svals_sorted.
  - done.
  - by apply svals_permutation.
Qed.

(** on a strictly ascending array the sorting permutation is the
    identity *)
Lemma strictly_sorted_argsort (argsort : list float64 → list Z) (vals : list float64) :
  sorts vals (argsort vals) → Sorted Qclt vals →
  argsort vals = seqZ 0 (Z.of_nat (length vals)).
Proof.
  intros Hsorts Hs.
  pose proof (sorted_gather_fixed argsort vals Hsorts (strictly_sorted_sorted _ Hs))
    as Hfix.
  pose proof (strictly_sorted_NoDup vals Hs) as Hnd.
  destruct Hsorts as [Hp _].
  assert (Hlen : length (argsort vals) = length vals).
  { rewrite Hp, length_seqZ. lia. }
  apply list_eq. intros k.
  destruct (decide (k < length vals)%nat) as [Hk|Hk].
  - rewrite lookup_seqZ_lt by lia. rewrite Z.add_0_l.
    destruct (lookup_lt_is_Some_2 (argsort vals) k) as [q Hq]; [lia|].
    rewrite Hq. f_equal.
    pose proof (indices_inside _ _ Hp) as Hin.
    pose proof (Forall_lookup_1 _ _ _ _ Hin Hq) as Hqr. simpl in Hqr.
    assert (Hv : vals !! k = Some (at_index vals q)).
    { rewrite <-Hfix at 1. by rewrite list_lookup_fmap, Hq. }
    destruct (item_inside vals q Hqr) as [_ Hvq].
    pose proof (NoDup_lookup _ _ _ _ Hnd Hv Hvq). lia.
  - rewrite lookup_seqZ_ge by lia. apply lookup_ge_None. lia.
Qed.

(** X7: when [eigh] returns its eigenvalues in ascending order, as SciPy
    documents, the wrapper returns these eigenvalues as they are, for any
    [argsort] and also when some are equal. *)
Theorem solve_eigen_ascending_values
    (eigh : ndarray → result (list float64 * ndarray))
    (argsort : list float64 → list Z) (N : Z) (potential : string)
    (vals : list float64) (vecs : ndarray) :
  N ≠ 0 →
  (∀ H, build_2d_hamiltonian N potential = Ok H → eigh H = Ok (vals, vecs)) →
  spectrum_of_size (N * N) (vals, vecs) →
  sorts vals (argsort vals) →
  Sorted Qcle vals →
  ∃ svecs, solve_eigen eigh argsort N potential None = Ok (vals, svecs).
Proof.
  intros HN Heigh Hsize Hsorts Hs.
  destruct (build_2d_hamiltonian_returns N potential HN) as (H & Hbuild & _).
  specialize (Heigh H Hbuild).
  rewrite (solve_eigen_result eigh argsort N potential H vals vecs
    Hbuild Heigh Hsize Hsorts None).
  rewrite (sorted_gather_fixed argsort vals Hsorts Hs). by eexists.
Qed.

(** X8: when the eigenvalues that [eigh] returns are strictly ascending,
    the wrapper returns the output of [eigh] unchanged, eigenvalues and
    eigenvector array. *)
Theorem solve_eigen_strictly_ascending
    (eigh : ndarray → result (list float64 * ndarray))
    (argsort : list float64 → list Z) (N : Z) (potential : string)
    (vals : list float64) (vecs : ndarray) :
  N ≠ 0 →
  (∀ H, build_2d_hamiltonian N potential = Ok H → eigh H = Ok (vals, vecs)) →
  spectrum_of_size (N * N) (vals, vecs) →
  sorts vals (argsort vals) →
  Sorted Qclt vals →
  solve_eigen eigh argsort N potential None = Ok (vals, vecs).
Proof.
  intros HN Heigh Hsize Hsorts Hs.
  destruct (build_2d_hamiltonian_returns N potential HN) as (H & Hbuild & _).
  specialize (Heigh H Hbuild).
  rewrite (solve_eigen_result eigh argsort N potential H vals vecs
    Hbuild Heigh Hsize Hsorts None).
  rewrite (strictly_sorted_argsort argsort vals Hsorts Hs).
  destruct Hsize as [Hlen [_ Hcols]]. simpl in *.
  rewrite at_index_seqZ. do 2 f_equal.
  rewrite <-(list_fmap_id vecs) at 2. apply list_fmap_ext.
  intros i row Hrow. simpl.
  pose proof (Forall_lookup_1 _ _ _ _ Hcols Hrow) as Hl. simpl in Hl.
  replace (length vals) with (length row) by lia. apply at_index_seqZ.
Qed.

(** order between concrete numbers, by evaluation *)
Ltac order_by_evaluation :=
  repeat first
    [ apply Sorted_nil | apply Sorted_cons | apply HdRel_nil | apply HdRel_cons
    | (unfold Qcle, Qclt, Qle, Qlt; simpl; lia) ].

Lemma solve_eigen_ascending_values_witness :
  ∃ svecs,
    solve_eigen (λ _, Ok ([lit 0; lit 1; lit 1; lit 3], unit_vectors))
      merge_argsort 2 "well" None =
    Ok ([lit 0; lit 1; lit 1; lit 3], svecs).
Proof.
  apply (solve_eigen_ascending_values
    (λ _, Ok ([lit 0; lit 1; lit 1; lit 3], unit_vectors))
    merge_argsort 2 "well" [lit 0; lit 1; lit 1; lit 3] unit_vectors).
  - lia.
  - intros H _. reflexivity.
  - repeat split; simpl; repeat constructor.
  - apply merge_argsort_sorts.
  - order_by_evaluation.
Defined.

Lemma solve_eigen_strictly_ascending_witness :
  solve_eigen (λ _, Ok ([lit 0; lit 1; lit 2; lit 3], unit_vectors))
    merge_argsort 2 "well" None =
  Ok ([lit 0; lit 1; lit 2; lit 3], unit_vectors).
Proof.
  apply (solve_eigen_strictly_ascending
    (λ _, Ok ([lit 0; lit 1; lit 2; lit 3], unit_vectors))
    merge_argsort 2 "well" [lit 0; lit 1; lit 2; lit 3] unit_vectors).
  - lia.
  - intros H _. reflexivity.
  - repeat split; simpl; repeat constructor.
  - apply merge_argsort_sorts.
  - order_by_evaluation.
Defined.

(** * The command line entry point *)

(** indexing raises nothing but [IndexError] *)
Lemma norm_index_raises (len : nat) (k : Z) (e : exn) :
  norm_index len k = Raise e → e = IndexError.
Proof. unfold norm_index. repeat case_decide; congruence. Qed.

Lemma item_raises (a : list float64) (k : Z) (e : exn) :
  item a k = Raise e → e = IndexError.
Proof.
  unfold item. destruct (norm_index _ _) as [p|e'] eqn:Hp; simpl.
  - destruct (a !! p); congruence.
  - intros [= <-]. by eapply norm_index_raises.
Qed.

Lemma map_result_raises {A B} (f : A → result B) (xs : list A) (e : exn) :
  (∀ x e', f x = Raise e' → e' = IndexError) →
  map_result f xs = Raise e → e = IndexError.
Proof.
  intros Hf. induction xs as [|x xs IH]; simpl; [done|].
  destruct (f x) as [y|e'] eqn:Hx; simpl.
  - destruct (map_result f xs) as [ys|e'']; simpl; [done|].
    intros [= <-]. by apply IH.
  - intros [= <-]. by eapply Hf.
Qed.

Lemma gather_raises (a : list float64) (ix : list Z) (e : exn) :
  gather a ix = Raise e → e = IndexError.
Proof. apply map_result_raises. intros k e'. apply item_raises. Qed.

Lemma gather_columns_raises (M : ndarray) (ix : list Z) (e : exn) :
  gather_columns M ix = Raise e → e = IndexError.
Proof. apply map_result_raises. intros row e'. apply gather_raises. Qed.

Lemma build_2d_hamiltonian_zero (potential : string) :
  build_2d_hamiltonian 0 potential = Raise ZeroDivisionError.
Proof. reflexivity. Qed.

(** X9: for [N = 0] the wrapper raises [ZeroDivisionError] before it
    calls the eigensolver, whatever [eigh], [argsort], the kind and
    [n_eigs] are; the script then ends with this exception, which its
    handler for [ValueError] does not catch. *)
Theorem zero_size_escapes
    (eigh : ndarray → result (list float64 * ndarray))
    (argsort : list float64 → list Z) (args : namespace) (n_eigs : option Z) :
  arg_N args = 0 →
  solve_eigen eigh argsort (arg_N args) (arg_potential args) n_eigs =
    Raise ZeroDivisionError ∧
  main eigh argsort args = Uncaught ZeroDivisionError.
Proof.
  intros HN. unfold main, solve_eigen. rewrite HN.
  rewrite build_2d_hamiltonian_zero. done.
Qed.

Lemma zero_size_escapes_witness :
  main unsorted_eigh merge_argsort
    {| arg_N := 0; arg_potential := "well"; arg_n_eigs := 5 |} =
  Uncaught ZeroDivisionError.
Proof.
  exact (proj2 (zero_size_escapes unsorted_eigh merge_argsort
    {| arg_N := 0; arg_potential := "well"; arg_n_eigs := 5 |} None eq_refl)).
Defined.

(** X10: for every [N] but [0], when [eigh] returns, the script prints
    the line "Lowest <n_eigs> eigenvalues: <array>"; the array is sorted
    ascending and holds as many values as the slice keeps, so the number
    in the line is not the number of values printed when [n_eigs] is
    negative or exceeds [N^2]. *)
Theorem main_prints
    (eigh : ndarray → result (list float64 * ndarray))
    (argsort : list float64 → list Z) (args : namespace)
    (vals : list float64) (vecs : ndarray) :
  arg_N args ≠ 0 →
  (∀ H, build_2d_hamiltonian (arg_N args) (arg_potential args) = Ok H →
        eigh H = Ok (vals, vecs)) →
  spectrum_of_size (arg_N args * arg_N args) (vals, vecs) →
  sorts vals (argsort vals) →
  ∃ rvals,
    main eigh argsort args =
      Printed [PStr "Lowest"; PInt (arg_n_eigs args); PStr "eigenvalues:";
               PArray rvals] ∧
    Sorted Qcle rvals ∧
    Z.of_nat (length rvals) =
      slice_count (arg_N args * arg_N args) (arg_n_eigs args).
Proof.
  intros HN Heigh Hsize Hsorts.
  destruct (build_2d_hamiltonian_returns _ (arg_potential args) HN)
    as (H & Hbuild & _).
  specialize (Heigh H Hbuild).
  pose proof (solve_eigen_result eigh argsort _ _ H vals vecs
    Hbuild Heigh Hsize Hsorts (Some (arg_n_eigs args))) as Hres.
  pose proof (svals_length argsort _ vals vecs Hsize Hsorts) as Hlen.
  pose proof (svals_sorted argsort vals Hsorts) as Hss.
  exists (slice_to (arg_n_eigs args) (at_index vals <$> argsort vals)).
  split; [|split].
  - unfold main. by rewrite Hres.
  - unfold slice_to. apply StronglySorted_Sorted.
    rewrite <-(take_drop (slice_stop (length (at_index vals <$> argsort vals))
      (arg_n_eigs args)) (at_index vals <$> argsort vals)) in Hss.
    by apply StronglySorted_app_1_l in Hss.
  - unfold slice_to. rewrite length_take, Nat.min_comm, Nat.min_comm.
    rewrite slice_stop_count. by rewrite Hlen.
Qed.

Lemma main_prints_witness :
  ∃ rvals,
    main unsorted_eigh merge_argsort
      {| arg_N := 2; arg_potential := "well"; arg_n_eigs := 5 |} =
    Printed [PStr "Lowest"; PInt 5; PStr "eigenvalues:"; PArray rvals] ∧
    Z.of_nat (length rvals) = 4.
Proof.
  destruct (main_prints unsorted_eigh merge_argsort
    {| arg_N := 2; arg_potential := "well"; arg_n_eigs := 5 |}
    [lit 3; lit 1; lit 2; lit 0]
    [[lit 1; lit 0; lit 0; lit 0];
     [lit 0; lit 1; lit 0; lit 0];
     [lit 0; lit 0; lit 1; lit 0];
     [lit 0; lit 0; lit 0; lit 1]])
    as (rvals & Hm & _ & Hlen).
  - simpl. lia.
  - intros H _. reflexivity.
  - exact unsorted_eigh_size.
  - apply merge_argsort_sorts.
  - exists rvals. split; [exact Hm|exact Hlen].
Defined.

(** X11: for every [N] but [0], when [eigh] raises, the script prints
    the line "Error: ..." if the exception is a [ValueError] or of a
    class derived from it, as [LinAlgError] is, and ends with the
    exception otherwise. *)
Theorem main_eigh_raises
    (eigh : ndarray → result (list float64 * ndarray))
    (argsort : list float64 → list Z) (args : namespace) (e : exn) :
  arg_N args ≠ 0 →
  (∀ H, build_2d_hamiltonian (arg_N args) (arg_potential args) = Ok H →
        eigh H = Raise e) →
  main eigh argsort args =
    if is_ValueError e then Printed [PStr "Error:"; PExn e] else Uncaught e.
Proof.
  intros HN Heigh.
  destruct (build_2d_hamiltonian_returns _ (arg_potential args) HN)
    as (H & Hbuild & _).
  specialize (Heigh H Hbuild).
  unfold main, solve_eigen. rewrite Hbuild. simpl. by rewrite Heigh.
Qed.

Lemma main_eigh_raises_witness :
  main (λ _, Raise LinAlgError) merge_argsort default_args =
  Printed [PStr "Error:"; PExn LinAlgError].
Proof.
  apply (main_eigh_raises (λ _, Raise LinAlgError) merge_argsort default_args
    LinAlgError).
  - simpl. lia.
  - intros H _. reflexivity.
Defined.

(** X12: whatever [eigh] and [argsort] are, when the script prints its
    "Error: ..." line the exception it shows was raised by the builder or
    by the eigensolver: the indexing by the sorted indices and the slices
    raise nothing that the handler catches. *)
Theorem error_line_sources
    (eigh : ndarray → result (list float64 * ndarray))
    (argsort : list float64 → list Z) (args : namespace) (e : exn) :
  main eigh argsort args = Printed [PStr "Error:"; PExn e] →
  is_ValueError e = true ∧
  (build_2d_hamiltonian (arg_N args) (arg_potential args) = Raise e ∨
   ∃ H, build_2d_hamiltonian (arg_N args) (arg_potential args) = Ok H ∧
        eigh H = Raise e).
Proof.
  unfold main, solve_eigen.
  destruct (build_2d_hamiltonian (arg_N args) (arg_potential args))
    as [H|e'] eqn:Hbuild; simpl.
  - destruct (eigh H) as [[vals vecs]|e'] eqn:Heigh; simpl.
    + destruct (gather vals (argsort vals)) as [svals|e'] eqn:Hg; simpl.
      * destruct (gather_columns vecs (argsort vals)) as [svecs|e'] eqn:Hc; simpl.
        -- discriminate.
        -- apply gather_columns_raises in Hc as ->. discriminate.
      * apply gather_raises in Hg as ->. discriminate.
    + destruct (is_ValueError e') eqn:He; [|discriminate].
      intros [= <-]. split; [done|]. right. by exists H.
  - destruct (is_ValueError e') eqn:He; [|discriminate].
    intros [= <-]. split; [done|]. by left.
Qed.

Lemma error_line_sources_witness :
  is_ValueError ValueError = true ∧
  (build_2d_hamiltonian 2 "well" = Raise ValueError ∨
   ∃ H, build_2d_hamiltonian 2 "well" = Ok H ∧
        (λ _ : ndarray, Raise ValueError : result (list float64 * ndarray)) H =
        Raise ValueError).
Proof.
  apply (error_line_sources (λ _, Raise ValueError) merge_argsort
    {| arg_N := 2; arg_potential := "well"; arg_n_eigs := 5 |} ValueError).
  vm_compute. reflexivity.
Defined.

(** * The structure of the matrix in any arithmetic *)

(** X13: in every arithmetic in which the division that computes [dx]
    returns, binary64 among them, the builder returns for [N >= 1] an
    [N^2] x [N^2] matrix whose off-diagonal entries are [float(N*N)] at
    the linear indices of the neighbours in the grid and [0.] elsewhere,
    and which is symmetric. *)
Theorem structure_in_any_arithmetic (A : arithmetic) (N : Z)
    (potential : string) (dx : num A) :
  1 ≤ N →
  Generic.truediv A (num_lit A 1) (num_of_int A N) = Ok dx →
  ∃ H, Generic.build_2d_hamiltonian A N potential = Ok H ∧
    square (N * N) H ∧
    ∀ r r', 0 ≤ r < N * N → 0 ≤ r' < N * N →
      getitem H r r' = getitem H r' r ∧
      (r' ≠ r →
       getitem H r r' =
         Ok (if decide (r' ∈ neighbour_indices N r)
             then num_of_int A (N * N) else num_lit A 0)).
Proof.
  intros HN Hdx.
  destruct (generic_build_stencil A N HN potential dx Hdx)
    as (H & HH & [Hsq Hget]).
  exists H. split; [done|]. split; [done|]. intros r r' Hr Hr'.
  split.
  - destruct (decide (r' = r)) as [->|Hne]; [done|].
    rewrite !Hget by done. unfold Generic.stencil.
    rewrite (decide_False (P := r' = r)), (decide_False (P := r = r')) by done.
    pose proof (neighbour_indices_sym N HN r r' Hr Hr') as Hsym.
    destruct (decide (r' ∈ neighbour_indices N r)).
    + by rewrite decide_True by tauto.
    + by rewrite decide_False by tauto.
  - intros Hne. rewrite !Hget by done. unfold Generic.stencil.
    by rewrite (decide_False (P := r' = r)) by done.
Qed.

Lemma structure_in_any_arithmetic_witness :
  ∃ H, Generic.build_2d_hamiltonian binary64 3 "harmonic" = Ok H ∧
       getitem H 0 1 = Ok (SpecFloat.S754_finite false 5066549580791808 (-49)) ∧
       getitem H 1 0 = getitem H 0 1.
Proof.
  destruct (structure_in_any_arithmetic binary64 3 "harmonic"
    (SpecFloat.S754_finite false 6004799503160661 (-54)))
    as (H & HH & _ & Hs); [lia|reflexivity|].
  exists H. split; [exact HH|].
  destruct (Hs 0 1) as [Hsym Hoff]; [lia|lia|].
  split; [|by symmetry].
  rewrite Hoff by lia. reflexivity.
Defined.
